(** * gmail_cleanup: the cache store, the sync engine, the stats aggregator
      and the deletion coordinator of [utils.py], embedded and verified.

    Conventions of the embedding.
    - A Python [dict] keyed by message id is a [gmap string _].  Python
      iterates a dict in insertion order; [gmap] has its own canonical
      order, so every result about the aggregator is first proved for an
      arbitrary item sequence with distinct keys ([aggregate_loop]) and
      then specialised to [map_to_list].
    - The file [email_cache.json] is a value of [CacheFile] when it is
      absent, unreadable or holds a JSON object, which is all that
      [save_cache] writes; a [Disk] also counts the calls of [save_cache].
      A file that holds any other JSON value is a [FileState], over which
      [AnyFile.load_cache] is [load_cache] in general.
    - Exceptions are explicit: fallible primitives return a [result].
    - The remote mailbox, the stop event and the local clock are the
      environment of a run: they are arguments, never fixed.
    - Assumed of the environment: [save_cache] succeeds; a batch either
      raises before its first callback or runs every callback; responses
      carry the fields that [batch_callback] indexes; [delete_messages] is
      given the client that [get_gmail_service] built, and [delete_emails]
      is given the outcome of building it. *)

From stdpp Require Import gmap strings list fin_maps pretty sorting.
From Stdlib Require Import ZArith Lia Ascii.

Open Scope string_scope.
Open Scope list_scope.
Open Scope nat_scope.
Open Scope stdpp_scope.

(** ** Python string primitives used by [utils.py] *)

Module PyStr.

(** [sub in s] *)
Fixpoint contains (sub s : string) : bool :=
  String.prefix sub s ||
  match s with
  | EmptyString => false
  | String _ s' => contains sub s'
  end.

(** [s.split(sep)] for a non-empty [sep]: a left-to-right scan for
    non-overlapping occurrences.  [skip] counts the characters of a
    separator that was just recognised and is still to be dropped;
    [cur] is the piece being read. *)
Fixpoint split_go (sep s : string) (skip : nat) (cur : string) : list string :=
  match s with
  | EmptyString => [cur]
  | String c s' =>
      match skip with
      | S k => split_go sep s' k cur
      | O =>
          if String.prefix sep s
          then cur :: split_go sep s' (String.length sep - 1) EmptyString
          else split_go sep s' 0 (cur +:+ String c EmptyString)
      end
  end.

Definition split (sep s : string) : list string := split_go sep s 0 EmptyString.

Definition is_space (c : ascii) : bool :=
  let n := Ascii.nat_of_ascii c in
  ((n =? 32) || ((9 <=? n) && (n <=? 13)) || ((28 <=? n) && (n <=? 31)))%nat.

Fixpoint lstrip (p : ascii -> bool) (s : string) : string :=
  match s with
  | EmptyString => EmptyString
  | String c s' => if p c then lstrip p s' else s
  end.

Fixpoint rstrip (p : ascii -> bool) (s : string) : string :=
  match s with
  | EmptyString => EmptyString
  | String c s' =>
      match rstrip p s' with
      | EmptyString => if p c then EmptyString else String c EmptyString
      | r => String c r
      end
  end.

(** [s.strip()] and [s.strip(chars)] *)
Definition strip_by (p : ascii -> bool) (s : string) : string := rstrip p (lstrip p s).
Definition strip (s : string) : string := strip_by is_space s.
Definition strip_char (q : ascii) (s : string) : string :=
  strip_by (fun c => bool_decide (c = q)) s.
(* the double quote character is [Ascii.ascii_of_nat 34] *)

Definition upper_ascii (c : ascii) : ascii :=
  let n := Ascii.nat_of_ascii c in
  if ((97 <=? n) && (n <=? 122))%nat then Ascii.ascii_of_nat (n - 32) else c.

(** [s.upper()] on ASCII text *)
Fixpoint upper (s : string) : string :=
  match s with
  | EmptyString => EmptyString
  | String c s' => String (upper_ascii c) (upper s')
  end.

Definition is_newline (c : ascii) : bool := bool_decide (c = "010"%char).

(** The lazy body of the pattern [<(.+?)>] once one character has been
    consumed: stop at the first [>], fail on a newline. *)
Fixpoint lazy_until_gt (s acc : string) : option string :=
  match s with
  | EmptyString => None
  | String c s' =>
      if bool_decide (c = ">"%char) then Some acc
      else if is_newline c then None
      else lazy_until_gt s' (acc +:+ String c EmptyString)
  end.

(** [re.search(r"<(.+?)>", s)], returning group 1 *)
Fixpoint search_angle (s : string) : option string :=
  match s with
  | EmptyString => None
  | String c s' =>
      if bool_decide (c = "<"%char) then
        match s' with
        | EmptyString => None
        | String d s'' =>
            match (if is_newline d then None
                   else lazy_until_gt s'' (String d EmptyString)) with
            | Some g => Some g
            | None => search_angle s'
            end
        end
      else search_angle s'
  end.

(** [sep.join(parts)] *)
Fixpoint join (sep : string) (parts : list string) : string :=
  match parts with
  | [] => EmptyString
  | x :: rest =>
      match rest with
      | [] => x
      | _ => x +:+ sep +:+ join sep rest
      end
  end.

(** Whether the character [c] occurs in [s]. *)
Fixpoint has_char (c : ascii) (s : string) : bool :=
  match s with
  | EmptyString => false
  | String x s' => bool_decide (x = c) || has_char c s'
  end.


End PyStr.

(** ** Exceptions *)

Inductive result (A : Type) : Type :=
  | Ok (a : A)
  | Raise (msg : string).
Arguments Ok {A} a.
Arguments Raise {A} msg.

Global Instance result_eq_dec {A : Type} `{EqDecision A} : EqDecision (result A).
Proof. solve_decision. Defined.

(** ** Data model *)

(** A cache record is a JSON object; the aggregator reads every field with
    [data.get(field, default)], so a field may be missing. *)
Record CacheRecord : Type := mkRecord {
  email : option string;
  name : option string;
  last_date : option Z;
  labels : option (list string)
}.

Global Instance CacheRecord_eq_dec : EqDecision CacheRecord.
Proof. solve_decision. Defined.

Abbreviation Cache := (gmap string CacheRecord).

(** [SYNC_STATE["status"]]: the status texts of [run], with the numbers
    that the f-strings interpolate kept as arguments. *)
Inductive Status : Type :=
  | Idle
  | StartingSync
  | ListingMessages
  | StoppedByUser
  | FoundMessages (listed missing : nat)
  | FetchingDetails (scanned total : nat)
  | Complete
  | Error (msg : string).

Global Instance Status_eq_dec : EqDecision Status.
Proof. solve_decision. Defined.

Record SyncState : Type := mkSync {
  is_running : bool;
  total_to_scan : nat;
  scanned_count : nat;
  status : Status;
  errors : list string
}.

Definition SYNC_STATE : SyncState :=
  {| is_running := false; total_to_scan := 0; scanned_count := 0;
     status := Idle; errors := [] |}.

(** ** Cache store *)

(** What [CACHE_FILE] holds: nothing, something that cannot be opened or
    parsed, or the JSON object written by an earlier [save_cache].  The
    remaining case, a file that holds a JSON value other than an object,
    is in [FileState] below. *)
Inductive CacheFile : Type :=
  | Absent
  | Corrupt
  | Stored (m : Cache).

Global Instance CacheFile_eq_dec : EqDecision CacheFile.
Proof. solve_decision. Defined.

Record Disk : Type := mkDisk {
  content : CacheFile;
  saves : nat
}.

Global Instance Disk_eq_dec : EqDecision Disk.
Proof. solve_decision. Defined.

Definition os_path_exists (f : CacheFile) : bool :=
  match f with
  | Absent => false
  | _ => true
  end.

(** [with open(CACHE_FILE, "r") as f: json.load(f)] *)
Definition json_load (f : CacheFile) : result Cache :=
  match f with
  | Absent => Raise "FileNotFoundError"
  | Corrupt => Raise "JSONDecodeError"
  | Stored m => Ok m
  end.

Definition load_cache (d : Disk) : result Cache :=
  if os_path_exists (content d) then
    match json_load (content d) with
    | Ok m => Ok m
    | Raise _ => Ok ∅
    end
  else Ok ∅.

Definition save_cache (cache : Cache) (d : Disk) : Disk :=
  {| content := Stored cache; saves := S (saves d) |}.

(** The mapping a reader of the file sees. *)
Definition persisted (d : Disk) : Cache :=
  match content d with
  | Stored m => m
  | _ => ∅
  end.

(** *** The cache file in general

    [json.load] returns the value of whatever JSON text the file holds,
    an object or not, and [load_cache] hands it on unchanged. *)

(** The values of [json.load]: [None], a [bool], a number, a [str], a
    [list] or a [dict].  An object is kept as the mapping of records that
    the rest of the program reads it as. *)
#[warnings="-register-all"] Inductive Json : Type :=
  | JNull
  | JBool (b : bool)
  | JNumber (z : Z)
  | JString (s : string)
  | JArray (items : list Json)
  | JObject (m : Cache).

(** [isinstance(v, dict)] *)
Definition is_dict (v : Json) : bool :=
  match v with
  | JObject _ => true
  | _ => false
  end.

Inductive FileState : Type :=
  | NoFile
  | Unreadable
  | Holds (v : Json).

(** A [CacheFile] among the file states. *)
Definition file_state (f : CacheFile) : FileState :=
  match f with
  | Absent => NoFile
  | Corrupt => Unreadable
  | Stored m => Holds (JObject m)
  end.

Module AnyFile.

Definition os_path_exists (f : FileState) : bool :=
  match f with
  | NoFile => false
  | _ => true
  end.

(** [with open(CACHE_FILE, "r") as f: json.load(f)] *)
Definition json_load (f : FileState) : result Json :=
  match f with
  | NoFile => Raise "FileNotFoundError"
  | Unreadable => Raise "JSONDecodeError"
  | Holds v => Ok v
  end.

(** [load_cache]: the bare [except] returns [{}]; what [json.load]
    returns is returned as it is. *)
Definition load_cache (f : FileState) : result Json :=
  if os_path_exists f then
    match json_load f with
    | Ok v => Ok v
    | Raise _ => Ok (JObject ∅)
    end
  else Ok (JObject ∅).

End AnyFile.

(** ** Sender parsing *)

Definition parse_sender_email (from_header : string) : string :=
  match PyStr.search_angle from_header with
  | Some g => g
  | None => from_header
  end.

Definition parse_sender_name (from_header sender_email : string) : string :=
  if PyStr.contains "<" from_header then
    PyStr.strip_char (Ascii.ascii_of_nat 34)
      (PyStr.strip (default EmptyString (head (PyStr.split "<" from_header))))
  else sender_email.

(** ** Sync engine *)

(** *** Environment of a run *)

(** One response of the batched [messages.get]. *)
Record Response : Type := mkResponse {
  resp_id : string;
  payload_headers : list (string * string);
  internalDate : Z;
  labelIds : option (list string)
}.

(** What the batch hands to [batch_callback] for one request. *)
Inductive DetailResult : Type :=
  | DetailError
  | DetailOk (response : Response).

(** [batch.execute()]: it raises before any callback runs, or it runs the
    callback once per request. *)
Inductive BatchResult : Type :=
  | BatchRaise (msg : string)
  | BatchDone (rs : list DetailResult).

(** One call of [messages.list(...).execute()]. *)
Inductive PageResult : Type :=
  | PageRaise (msg : string)
  | Page (ids : list string).

(** The remote listing is a finite sequence of pages: a page carries a
    [nextPageToken] iff another page follows it.  [execute_batch i chunk]
    is the outcome of the batch that starts at index [i].  The stop event
    is only ever set: [stop_at = Some k] means that the first [k] calls of
    [is_set()] answer [False] and all later ones [True]. *)
Record Env : Type := mkEnv {
  build_service : result unit;
  pages : list PageResult;
  execute_batch : nat -> list string -> BatchResult;
  stop_at : option nat
}.

(** A [BackgroundSyncer] together with what it acts on: the global
    [SYNC_STATE] and the disk.  [clock] counts the calls of [is_set()];
    [fetch_log] records every executed batch, oldest first, with [true]
    when [execute()] returned. *)
Record Syncer : Type := mkSyncer {
  max_results : Z;
  output_cache : Cache;
  sync : SyncState;
  disk : Disk;
  clock : nat;
  fetch_log : list (list string * bool)
}.

Definition is_set (env : Env) (s : Syncer) : bool :=
  match stop_at env with
  | Some k => bool_decide (k <= clock s)
  | None => false
  end.

Definition tick (s : Syncer) : Syncer :=
  {| max_results := max_results s; output_cache := output_cache s;
     sync := sync s; disk := disk s; clock := S (clock s);
     fetch_log := fetch_log s |}.

Definition with_sync (f : SyncState -> SyncState) (s : Syncer) : Syncer :=
  {| max_results := max_results s; output_cache := output_cache s;
     sync := f (sync s); disk := disk s; clock := clock s;
     fetch_log := fetch_log s |}.

Definition log_batch (chunk : list string) (ok : bool) (s : Syncer) : Syncer :=
  {| max_results := max_results s; output_cache := output_cache s;
     sync := sync s; disk := disk s; clock := clock s;
     fetch_log := fetch_log s ++ [(chunk, ok)] |}.

Definition set_status (v : Status) (st : SyncState) : SyncState :=
  {| is_running := is_running st; total_to_scan := total_to_scan st;
     scanned_count := scanned_count st; status := v; errors := errors st |}.

Definition set_total (n : nat) (st : SyncState) : SyncState :=
  {| is_running := is_running st; total_to_scan := n;
     scanned_count := scanned_count st; status := status st; errors := errors st |}.

Definition add_scanned (n : nat) (st : SyncState) : SyncState :=
  {| is_running := is_running st; total_to_scan := total_to_scan st;
     scanned_count := scanned_count st + n; status := status st;
     errors := errors st |}.

Definition append_error (msg : string) (st : SyncState) : SyncState :=
  {| is_running := is_running st; total_to_scan := total_to_scan st;
     scanned_count := scanned_count st; status := status st;
     errors := errors st ++ [msg] |}.

Definition set_running (b : bool) (st : SyncState) : SyncState :=
  {| is_running := b; total_to_scan := total_to_scan st;
     scanned_count := scanned_count st; status := status st; errors := errors st |}.

(** [self.output_cache.update(new_items); save_cache(self.output_cache)] *)
Definition merge_and_save (new_items : Cache) (s : Syncer) : Syncer :=
  let cache := new_items ∪ output_cache s in
  {| max_results := max_results s; output_cache := cache;
     sync := sync s; disk := save_cache cache (disk s); clock := clock s;
     fetch_log := fetch_log s |}.

(** [BackgroundSyncer.__init__] *)
Definition init (mr : Z) (d : Disk) : result Syncer :=
  match load_cache d with
  | Ok m =>
      Ok {| max_results := mr; output_cache := m; sync := SYNC_STATE;
            disk := d; clock := 0; fetch_log := [] |}
  | Raise msg => Raise msg
  end.

(** *** Phase 1: listing *)

Inductive outcome (A : Type) : Type :=
  | Done (s : Syncer) (a : A)
  | Failed (s : Syncer) (msg : string).
Arguments Done {A} s a.
Arguments Failed {A} s msg.

(** The [while not self._stop_event.is_set()] loop.  The request asks for
    at most [min(500, max_results - fetched_count)] ids; the pages of
    [env] are what the remote answers. *)
Fixpoint list_messages (env : Env) (pgs : list PageResult) (s : Syncer)
    (messages : list string) (fetched_count : nat) : outcome (list string) :=
  if is_set env s then Done (tick s) messages
  else
    let s := tick s in
    match pgs with
    | [] => Done (with_sync (set_total fetched_count) s) messages
    | PageRaise msg :: _ => Failed s msg
    | Page batch_msgs :: rest =>
        let messages := messages ++ batch_msgs in
        let fetched_count := fetched_count + length batch_msgs in
        let s := with_sync (set_total fetched_count) s in
        if bool_decide (rest = []) ||
           bool_decide (max_results s ≤ Z.of_nat fetched_count)%Z
        then Done s messages
        else list_messages env rest s messages fetched_count
    end.

(** *** Phase 2: the ids that need a detail fetch *)

Definition missing_ids (cache : Cache) (messages : list string) : list string :=
  filter (fun id => cache !! id = None) messages.

(** *** Phase 3: batched detail fetches *)

Definition BATCH_SIZE : nat := 100.

Definition header_dict (headers : list (string * string)) : gmap string string :=
  foldl (fun m h => <[h.1 := h.2]> m) ∅ headers.

Definition batch_callback (new_items : Cache) (r : DetailResult) : Cache :=
  match r with
  | DetailError => new_items
  | DetailOk response =>
      let from_header :=
        default "Unknown" (header_dict (payload_headers response) !! "From") in
      let sender_email := parse_sender_email from_header in
      let sender_name := parse_sender_name from_header sender_email in
      <[resp_id response :=
          {| email := Some sender_email;
             name := Some sender_name;
             last_date := Some (internalDate response);
             labels := Some (default [] (labelIds response)) |}]> new_items
  end.

(** [range(0, stop, step)] *)
Definition py_range (stop step : nat) : list nat :=
  (fun k => k * step) <$> seq 0 ((stop + step - 1) / step).

(** The body of the [for] loop after the stop check, for the batch that
    starts at index [i]. *)
Definition fetch_batch (env : Env) (missing : list string) (i : nat)
    (s : Syncer) (new_items : Cache) : Syncer * Cache :=
  let chunk_ids := take BATCH_SIZE (drop i missing) in
  match execute_batch env i chunk_ids with
  | BatchDone rs =>
      let new_items := foldl batch_callback new_items rs in
      let s := log_batch chunk_ids true s in
      let s := with_sync (add_scanned (length chunk_ids)) s in
      let s := with_sync (set_status
                 (FetchingDetails (scanned_count (sync s)) (length missing))) s in
      if bool_decide (i mod 500 = 0)
      then (merge_and_save new_items s, ∅)
      else (s, new_items)
  | BatchRaise msg =>
      (with_sync (append_error msg) (log_batch chunk_ids false s), new_items)
  end.

Fixpoint fetch_loop (env : Env) (missing : list string) (starts : list nat)
    (s : Syncer) (new_items : Cache) : Syncer * Cache :=
  match starts with
  | [] => (s, new_items)
  | i :: rest =>
      if is_set env s then (tick s, new_items)
      else
        let '(s', new_items') := fetch_batch env missing i (tick s) new_items in
        fetch_loop env missing rest s' new_items'
  end.

Definition batch_starts (missing : list string) : list nat :=
  py_range (length missing) BATCH_SIZE.

(** *** The run *)

(** What [run] has done when the listing phase is over. *)
Inductive Prepared : Type :=
  | Aborted (s : Syncer)
  | Ready (s : Syncer) (messages : list string).

Definition start_state (st : SyncState) : SyncState :=
  {| is_running := true; total_to_scan := 0; scanned_count := 0;
     status := StartingSync; errors := [] |}.

Definition prepare (env : Env) (s0 : Syncer) : Prepared :=
  let s := with_sync start_state s0 in
  match build_service env with
  | Raise msg => Aborted (with_sync (set_status (Error msg)) s)
  | Ok _ =>
      let s := with_sync (set_status ListingMessages) s in
      match list_messages env (pages env) s [] 0 with
      | Failed s msg => Aborted (with_sync (set_status (Error msg)) s)
      | Done s messages =>
          if is_set env s
          then Aborted (with_sync (set_status StoppedByUser) (tick s))
          else Ready (tick s) messages
      end
  end.

(** The state in which phase 3 starts. *)
Definition diffed (s : Syncer) (messages : list string) : Syncer :=
  with_sync (set_status
    (FoundMessages (length messages)
       (length (missing_ids (output_cache s) messages)))) s.

Definition fetch_details (env : Env) (s : Syncer) (missing : list string) : Syncer :=
  let '(s', new_items) := fetch_loop env missing (batch_starts missing) s ∅ in
  merge_and_save new_items s'.

Definition run (env : Env) (s0 : Syncer) : Syncer :=
  with_sync (set_running false)
    match prepare env s0 with
    | Aborted s => s
    | Ready s messages =>
        let missing := missing_ids (output_cache s) messages in
        let s := diffed s messages in
        let s := match missing with
                 | [] => s
                 | _ => fetch_details env s missing
                 end in
        with_sync (set_status Complete) s
    end.

(** The process as it is when it is killed right after the [M]-th
    iteration of the batch loop: no final merge has happened. *)
Definition killed_after (env : Env) (s0 : Syncer) (M : nat) : option Syncer :=
  match prepare env s0 with
  | Aborted _ => None
  | Ready s messages =>
      let missing := missing_ids (output_cache s) messages in
      Some (fetch_loop env missing (take M (batch_starts missing))
              (diffed s messages) ∅).1
  end.

(** ** Stats aggregator *)

Record SenderStat : Type := mkStat {
  stat_email : string;
  count : nat;
  ids : list string;
  stat_name : string;
  stat_last_date : Z
}.

Record StatsResult : Type := mkStats {
  stats : list SenderStat;
  total_scanned : nat;
  (** [oldest_date] before it is formatted; [None] is the text ["N/A"] *)
  oldest_date : option Z
}.

(** The loop variables of [fetch_email_stats].  [agg_stats] is the
    [defaultdict], in insertion order; [agg_oldest = None] is
    [float("inf")]. *)
Record Agg : Type := mkAgg {
  agg_stats : list SenderStat;
  agg_oldest : option Z;
  agg_total : nat
}.

(** The value the [defaultdict] factory makes for a new key ([last_date]
    is absent there and read with default 0). *)
Definition default_stat (e : string) : SenderStat :=
  {| stat_email := e; count := 0; ids := []; stat_name := "Unknown";
     stat_last_date := 0 |}.

(** [stats[e] = f(stats[e])] on the [defaultdict]: an existing key keeps
    its place, a new one goes last. *)
Fixpoint touch (e : string) (f : SenderStat -> SenderStat)
    (l : list SenderStat) : list SenderStat :=
  match l with
  | [] => [f (default_stat e)]
  | st :: rest =>
      if bool_decide (stat_email st = e) then f st :: rest
      else st :: touch e f rest
  end.

Definition record_ts (data : CacheRecord) : Z := default 0%Z (last_date data).
Definition sender (data : CacheRecord) : string := default "Unknown" (email data).

(** [before_ts and data.get("last_date", 0) >= before_ts]; a number is
    true in Python iff it is not zero. *)
Definition date_excludes (before_ts : option Z) (data : CacheRecord) : bool :=
  match before_ts with
  | None => false
  | Some t => bool_decide (t ≠ 0%Z) && bool_decide (t ≤ record_ts data)%Z
  end.

Definition category_excludes (target_category : option string)
    (data : CacheRecord) : bool :=
  match target_category with
  | None => false
  | Some c => bool_decide (c ∉ default [] (labels data))
  end.

(** A record survives the filters when neither [continue] is taken. *)
Definition survives (before_ts : option Z) (target_category : option string)
    (data : CacheRecord) : bool :=
  negb (date_excludes before_ts data) &&
  negb (category_excludes target_category data).

Definition bump (mid : string) (data : CacheRecord) (st : SenderStat) : SenderStat :=
  {| stat_email := stat_email st;
     count := S (count st);
     ids := ids st ++ [mid];
     stat_name := default (sender data) (name data);
     stat_last_date := Z.max (stat_last_date st) (record_ts data) |}.

(** One iteration of [for mid, data in cache.items()]. *)
Definition aggregate_step (before_ts : option Z) (target_category : option string)
    (a : Agg) (item : string * CacheRecord) : Agg :=
  let '(mid, data) := item in
  if date_excludes before_ts data then a
  else if category_excludes target_category data then a
  else
    let ts := record_ts data in
    {| agg_total := S (agg_total a);
       agg_oldest :=
         match agg_oldest a with
         | None => Some ts
         | Some o => if bool_decide (ts < o)%Z then Some ts else Some o
         end;
       agg_stats := touch (sender data) (bump mid data) (agg_stats a) |}.

Definition aggregate_loop (before_ts : option Z) (target_category : option string)
    (items : list (string * CacheRecord)) : Agg :=
  foldl (aggregate_step before_ts target_category)
    {| agg_stats := []; agg_oldest := None; agg_total := 0 |} items.

(** [sorted(..., key=lambda x: x["count"], reverse=True)]: a stable sort,
    equal counts keep their input order. *)
Fixpoint insert_by_count (x : SenderStat) (l : list SenderStat) : list SenderStat :=
  match l with
  | [] => [x]
  | y :: rest =>
      if bool_decide (count y ≤ count x) then x :: y :: rest
      else y :: insert_by_count x rest
  end.

Definition sorted_by_count (l : list SenderStat) : list SenderStat :=
  foldr insert_by_count [] l.

(** The local clock: [mktime date_str] is
    [time.mktime(datetime.strptime(date_str, "%Y-%m-%d").timetuple())], the
    epoch seconds of local midnight of that date, or [None] when either
    call raises. *)
Definition LocalTime : Type := string -> option Z.

(** The [before:] part of the query; every exception is swallowed and
    leaves [before_ts = None]. *)
Definition parse_before (mktime : LocalTime) (query : string) : option Z :=
  if PyStr.contains "before:" query then
    match PyStr.split "before:" query !! 1 with
    | None => None
    | Some rest =>
        match head (PyStr.split " " rest) with
        | None => None
        | Some date_str =>
            match mktime date_str with
            | None => None
            | Some t => Some (t * 1000)%Z
            end
        end
    end
  else None.

Definition parse_category (query : string) : option string :=
  if PyStr.contains "category:" query then
    let cat_arg :=
      PyStr.upper
        (default EmptyString
           (head (PyStr.split " "
              (default EmptyString (PyStr.split "category:" query !! 1))))) in
    if bool_decide (cat_arg ∈ ["SOCIAL"; "PROMOTIONS"; "UPDATES"; "FORUMS"])
    then Some ("CATEGORY_" +:+ cat_arg)
    else None
  else None.

(** [if query:] is false for [None] and for the empty string. *)
Definition query_filters (mktime : LocalTime) (query : option string)
    : option Z * option string :=
  match query with
  | None => (None, None)
  | Some q =>
      if bool_decide (q = EmptyString) then (None, None)
      else (parse_before mktime q, parse_category q)
  end.

Definition fetch_email_stats (mktime : LocalTime) (d : Disk)
    (query : option string) : result StatsResult :=
  match load_cache d with
  | Raise msg => Raise msg
  | Ok cache =>
      if bool_decide (cache = ∅) then
        Ok {| stats := []; total_scanned := 0; oldest_date := None |}
      else
        let '(before_ts, target_category) := query_filters mktime query in
        let a := aggregate_loop before_ts target_category (map_to_list cache) in
        Ok {| stats := sorted_by_count (agg_stats a);
              total_scanned := agg_total a;
              oldest_date :=
                if bool_decide (0 < agg_total a) then agg_oldest a else None |}
  end.

(** ** Deletion coordinator *)

(** [service] is the client that [get_gmail_service] returned:
    [service i batch_ids] is the outcome of the [batchModify] call issued
    for the batch that starts at index [i]. *)
Definition TrashService : Type := nat -> list string -> result unit.

Definition TRASH_BATCH : nat := 1000.

Definition trash_batches (message_ids : list string) : list (nat * list string) :=
  (fun i => (i, take TRASH_BATCH (drop i message_ids)))
    <$> py_range (length message_ids) TRASH_BATCH.

(** The [for] loop over the batches: [cleaned_ids] after it. *)
Definition trash_loop (service : TrashService) (message_ids : list string)
    : list string :=
  foldl (fun cleaned_ids b =>
           match service b.1 b.2 with
           | Ok _ => cleaned_ids ++ b.2
           | Raise _ => cleaned_ids
           end) [] (trash_batches message_ids).

Definition remove_ids (cleaned_ids : list string) (cache : Cache) : Cache :=
  foldl (fun c mid => if bool_decide (is_Some (c !! mid)) then delete mid c else c)
    cache cleaned_ids.

Definition delete_messages (service : TrashService) (d : Disk)
    (message_ids : list string) : result (nat * Disk) :=
  match message_ids with
  | [] => Ok (0, d)
  | _ =>
      let cleaned_ids := trash_loop service message_ids in
      match cleaned_ids with
      | [] => Ok (length cleaned_ids, d)
      | _ =>
          match load_cache d with
          | Raise msg => Raise msg
          | Ok cache =>
              Ok (length cleaned_ids, save_cache (remove_ids cleaned_ids cache) d)
          end
      end
  end.

(** [clear_local_cache] *)
Definition clear_local_cache (d : Disk) : Disk :=
  if os_path_exists (content d)
  then {| content := Absent; saves := saves d |}
  else d.

(** ** A concrete environment: a host whose local time is UTC

    [strptime] with the format [%Y-%m-%d] accepts four digits, a month
    written with one or two digits and a day written with one or two
    digits, and rejects a date that does not exist; [mktime] then counts
    the seconds from 1970-01-01 to midnight of that day. *)

Module UTC.

Definition digit_of (c : ascii) : option Z :=
  let n := Ascii.nat_of_ascii c in
  if ((48 <=? n) && (n <=? 57))%nat then Some (Z.of_nat (n - 48)) else None.

Fixpoint digits_go (s : string) (acc : Z) : option Z :=
  match s with
  | EmptyString => Some acc
  | String c s' =>
      match digit_of c with
      | Some v => digits_go s' (acc * 10 + v)%Z
      | None => None
      end
  end.

(** A run of [lo] to [hi] decimal digits. *)
Definition number (lo hi : nat) (s : string) : option Z :=
  if ((lo <=? String.length s) && (String.length s <=? hi))%nat
  then digits_go s 0%Z else None.

Definition leap (y : Z) : bool :=
  ((y mod 4 =? 0) && negb (y mod 100 =? 0) || (y mod 400 =? 0))%Z.

Definition days_in_month (y m : Z) : Z :=
  if (m =? 2)%Z then (if leap y then 29 else 28)%Z
  else if ((m =? 4) || (m =? 6) || (m =? 9) || (m =? 11))%Z then 30%Z
  else 31%Z.

(** Days from 1970-01-01 to the given day of the proleptic Gregorian
    calendar. *)
Definition days_from_civil (y m d : Z) : Z :=
  let y' := (if m <=? 2 then y - 1 else y)%Z in
  let era := (y' / 400)%Z in
  let yoe := (y' - era * 400)%Z in
  let mp := (if m <=? 2 then m + 9 else m - 3)%Z in
  let doy := ((153 * mp + 2) / 5 + d - 1)%Z in
  let doe := (yoe * 365 + yoe / 4 - yoe / 100 + doy)%Z in
  (era * 146097 + doe - 719468)%Z.

Definition mktime : LocalTime := fun date_str =>
  match PyStr.split "-" date_str with
  | [ys; ms; ds] =>
      match number 4 4 ys, number 1 2 ms, number 1 2 ds with
      | Some y, Some m, Some d =>
          if ((1 <=? y) && (1 <=? m) && (m <=? 12) &&
              (1 <=? d) && (d <=? days_in_month y m))%Z
          then Some (days_from_civil y m d * 86400)%Z
          else None
      | _, _, _ => None
      end
  | _ => None
  end.

End UTC.

(** ** Concrete mailboxes and disks used to run the model *)

Module Sample.

Definition id_of (k : nat) : string := "m" +:+ pretty k.

(** The ids [m0 .. m(n-1)] *)
Definition mailbox (n : nat) : list string := id_of <$> seq 0 n.

Definition response_for (id : string) : Response :=
  {| resp_id := id;
     payload_headers := [("Date", "Thu, 1 Jun 2023 00:00:00 +0000");
                         ("From", "Jane Doe <jane@example.com>")];
     internalDate := 1685577600000;
     labelIds := Some ["INBOX"; "CATEGORY_SOCIAL"] |}.

(** A remote on which every request of every batch succeeds. *)
Definition all_ok : nat -> list string -> BatchResult :=
  fun _ chunk => BatchDone ((fun id => DetailOk (response_for id)) <$> chunk).

(** A remote whose batch starting at index [bad] raises. *)
Definition fails_at (bad : nat) : nat -> list string -> BatchResult :=
  fun i chunk => if bool_decide (i = bad) then BatchRaise "HttpError 429"
                 else all_ok i chunk.

(** A remote that answers every single request with an error. *)
Definition all_gone : nat -> list string -> BatchResult :=
  fun _ chunk => BatchDone ((fun _ => DetailError) <$> chunk).

Definition empty_disk : Disk := {| content := Absent; saves := 0 |}.

(** The syncer that [init] builds over a disk without cache file. *)
Definition fresh : Syncer :=
  {| max_results := 50000%Z; output_cache := ∅; sync := SYNC_STATE;
     disk := empty_disk; clock := 0; fetch_log := [] |}.

Definition env_of (n : nat) (exec : nat -> list string -> BatchResult)
    (stop : option nat) : Env :=
  {| build_service := Ok tt; pages := [Page (mailbox n)];
     execute_batch := exec; stop_at := stop |}.

Definition record_of (e : string) (ts : Z) : CacheRecord :=
  {| email := Some e; name := Some e; last_date := Some ts;
     labels := Some ["INBOX"] |}.

(** A cache that holds [m0] and [m1], [m0] being a social message of
    2023-06-01 and [m1] an older one without category. *)
Definition two_cached : Cache :=
  {[ "m0" := {| email := Some "jane@example.com"; name := Some "Jane Doe";
                last_date := Some 1685577600000%Z;
                labels := Some ["INBOX"; "CATEGORY_SOCIAL"] |};
     "m1" := record_of "x@example.com" 1000 ]}.

Definition cached_disk : Disk := {| content := Stored two_cached; saves := 1 |}.

(** The syncer that [init] builds over [cached_disk]. *)
Definition warm : Syncer :=
  {| max_results := 50000%Z; output_cache := two_cached; sync := SYNC_STATE;
     disk := cached_disk; clock := 0; fetch_log := [] |}.

End Sample.

(** ** Vocabulary of the statements *)

(** *** Sync engine *)

Definition chunk_at (missing : list string) (i : nat) : list string :=
  take BATCH_SIZE (drop i missing).

Definition batch_ok (env : Env) (missing : list string) (i : nat) : bool :=
  match execute_batch env i (chunk_at missing i) with
  | BatchDone _ => true
  | BatchRaise _ => false
  end.

(** The log entry that the batch starting at [i] leaves. *)
Definition log_entry (env : Env) (missing : list string) (i : nat)
    : list string * bool :=
  (chunk_at missing i, batch_ok env missing i).

(** The ids of the logged batches whose [execute()] returned. *)
Definition ok_ids (log : list (list string * bool)) : list string :=
  concat ((fun e : list string * bool => if e.2 then e.1 else []) <$> log).

(** The ids for which a detail request was sent. *)
Definition attempted (s : Syncer) : list string := concat (fetch_log s).*1.

(** What the listing phase leaves alone. *)
Definition untouched (s s' : Syncer) : Prop :=
  output_cache s' = output_cache s /\ fetch_log s' = fetch_log s /\
  disk s' = disk s /\ scanned_count (sync s') = scanned_count (sync s).

Definition scanned_inv (s : Syncer) : Prop :=
  scanned_count (sync s) = length (ok_ids (fetch_log s)).

(** *** Deletion coordinator *)

Definition is_ok {A : Type} (r : result A) : bool :=
  match r with
  | Ok _ => true
  | Raise _ => false
  end.

(** The ids of the batches whose [batchModify] call returned. *)
Definition trashed (service : TrashService) (message_ids : list string)
    : list string :=
  concat ((fun b : nat * list string => if is_ok (service b.1 b.2) then b.2 else [])
            <$> trash_batches message_ids).

(** *** Stats aggregator *)

(** The ids, in iteration order, of the items that survive the filters and
    whose sender is [e]. *)
Definition kept_of (before_ts : option Z) (target_category : option string)
    (e : string) (items : list (string * CacheRecord)) : list string :=
  (filter (fun it : string * CacheRecord =>
             survives before_ts target_category it.2 = true /\ sender it.2 = e)
          items).*1.

(** Descending order of [count]. *)
Definition by_count_desc (a b : SenderStat) : Prop := count b <= count a.

(** What the aggregation loop has built after the items [items]. *)
Record loop_inv (before_ts : option Z) (target_category : option string)
    (items : list (string * CacheRecord)) (a : Agg) : Prop := {
  inv_total :
    agg_total a
    = length (filter (fun it : string * CacheRecord =>
                        survives before_ts target_category it.2 = true) items);
  inv_sum : sum_list (count <$> agg_stats a) = agg_total a;
  inv_nodup : NoDup (stat_email <$> agg_stats a);
  inv_ids :
    Forall (fun st => ids st = kept_of before_ts target_category (stat_email st) items /\
                      count st = length (ids st) /\
                      0 < count st) (agg_stats a);
  inv_present :
    forall e, kept_of before_ts target_category e items <> [] ->
              e ∈ stat_email <$> agg_stats a
}.

(** ** Request handlers of [app.py] *)

Inductive HttpReply (A : Type) : Type :=
  | Reply (a : A)
  | Unauthorized
  | ServerError (msg : string).
Arguments Reply {A} a.
Arguments Unauthorized {A}.
Arguments ServerError {A} msg.

(** The query that [get_stats] builds from the request arguments
    [before] and [category]; an argument is [None] when it is absent. *)
Definition build_query (before_date category : option string) : option string :=
  let query_parts :=
    match before_date with
    | Some b => if bool_decide (b = EmptyString) then [] else ["before:" +:+ b]
    | None => []
    end ++
    match category with
    | Some c =>
        if bool_decide (c = EmptyString) || bool_decide (c = "all") then []
        else ["category:" +:+ c]
    | None => []
    end in
  match query_parts with
  | [] => None
  | _ => Some (PyStr.join " " query_parts)
  end.

(** [get_stats]; [authorized] is [creds and creds.valid]. *)
Definition get_stats (authorized : bool) (mktime : LocalTime) (d : Disk)
    (before_date category : option string) : HttpReply StatsResult :=
  if negb authorized then Unauthorized
  else
    match fetch_email_stats mktime d (build_query before_date category) with
    | Ok r => Reply r
    | Raise msg => ServerError msg
    end.


(** ** Vocabulary of the further statements *)

(** The number of logged batches whose [execute()] raised. *)
Definition failed_count (log : list (list string * bool)) : nat :=
  length (filter (fun e : list string * bool => e.2 = false) log).

(** The ids of the responses that a batch hands to the callback. *)
Definition answered (rs : list DetailResult) : list string :=
  rs ≫= fun r => match r with
                 | DetailOk response => [resp_id response]
                 | DetailError => []
                 end.

(** Every response of the remote is for an id of the batch it answers. *)
Definition faithful (env : Env) : Prop :=
  forall i chunk rs,
    execute_batch env i chunk = BatchDone rs ->
    forall id, id ∈ answered rs -> id ∈ chunk.

(** Every batch returns and answers each of its requests. *)
Definition answers_all (env : Env) : Prop :=
  forall i chunk, exists rs,
    execute_batch env i chunk = BatchDone rs /\ answered rs = chunk.

(** The records of [c0] are in the in-memory cache and in the file, and
    the buffer holds none of their keys. *)
Definition keeps_old (c0 : Cache) (s : Syncer) (new_items : Cache) : Prop :=
  c0 ⊆ output_cache s /\ c0 ⊆ persisted (disk s) /\
  forall k, is_Some (new_items !! k) -> c0 !! k = None.

(** Every key of [c0] and every id requested so far is a key of the
    cache as it will be after the next merge. *)
Definition covers (c0 : Cache) (s : Syncer) (new_items : Cache) : Prop :=
  forall k, is_Some (c0 !! k) \/ k ∈ attempted s ->
            is_Some ((new_items ∪ output_cache s) !! k).

(** The surviving items of the aggregation loop. *)
Definition survivors (before_ts : option Z) (target_category : option string)
    (items : list (string * CacheRecord)) : list (string * CacheRecord) :=
  filter (fun it : string * CacheRecord =>
            survives before_ts target_category it.2 = true) items.

(** What the loop has built besides counts and ids: the oldest
    timestamp, and per sender the latest timestamp and the name. *)
Record loop_inv_dates (before_ts : option Z) (target_category : option string)
    (items : list (string * CacheRecord)) (a : Agg) : Prop := {
  inv_oldest :
    match agg_oldest a with
    | None => survivors before_ts target_category items = []
    | Some o =>
        (exists it, it ∈ survivors before_ts target_category items /\
                    record_ts it.2 = o) /\
        forall it, it ∈ survivors before_ts target_category items ->
                   (o ≤ record_ts it.2)%Z
    end;
  inv_latest :
    Forall (fun st =>
              (0 ≤ stat_last_date st)%Z /\
              (forall it, it ∈ survivors before_ts target_category items ->
                          sender it.2 = stat_email st ->
                          (record_ts it.2 ≤ stat_last_date st)%Z) /\
              (stat_last_date st = 0%Z \/
               exists it, it ∈ survivors before_ts target_category items /\
                          sender it.2 = stat_email st /\
                          record_ts it.2 = stat_last_date st) /\
              (exists it, it ∈ survivors before_ts target_category items /\
                          sender it.2 = stat_email st /\
                          stat_name st = default (sender it.2) (name it.2)))
           (agg_stats a)
}.

(** The ids of one page of the listing. *)
Definition page_ids (p : PageResult) : list string :=
  match p with
  | Page ids => ids
  | PageRaise _ => []
  end.

(** The ids of the first [k] pages. *)
Definition listed_upto (pgs : list PageResult) (k : nat) : list string :=
  concat (page_ids <$> take k pgs).

(** * Properties *)

(** Closes a closed goal about a concrete input by running the model. *)
Ltac run_model :=
  cbv zeta;
  repeat match goal with |- _ /\ _ => split end;
  apply (bool_decide_unpack _); vm_compute; exact I.

(** ** The model on the examples of the specification *)

Example parse_sender_bracketed :
  parse_sender_email "Jane Doe <jane@example.com>" = "jane@example.com" /\
  parse_sender_name "Jane Doe <jane@example.com>" "jane@example.com" = "Jane Doe".
Proof. split; reflexivity. Qed.

Example parse_sender_plain :
  parse_sender_email "noreply@example.com" = "noreply@example.com" /\
  parse_sender_name "noreply@example.com" "noreply@example.com" = "noreply@example.com".
Proof. split; reflexivity. Qed.

Example split_examples :
  PyStr.split "before:" "before:2023-06-01 category:social"
    = [""; "2023-06-01 category:social"] /\
  PyStr.split " " "2023-06-01 category:social" = ["2023-06-01"; "category:social"] /\
  PyStr.split ":" "a:" = ["a"; ""].
Proof. repeat split; reflexivity. Qed.

Example category_filter_parsed :
  query_filters UTC.mktime (Some "before:2023-06-01 category:social")
  = (Some 1685577600000%Z, Some "CATEGORY_SOCIAL") /\
  query_filters UTC.mktime (Some "category:spam") = (None, None) /\
  query_filters UTC.mktime (Some "before:someday") = (None, None).
Proof. repeat split; reflexivity. Qed.

Example utc_mktime_epoch : UTC.mktime "1970-01-01" = Some 0%Z.
Proof. reflexivity. Qed.

Example utc_mktime_2023_06_01 : UTC.mktime "2023-06-01" = Some 1685577600%Z.
Proof. reflexivity. Qed.

Example utc_mktime_rejects :
  UTC.mktime "2023-02-30" = None /\ UTC.mktime "yesterday" = None /\
  UTC.mktime "2023-13-01" = None.
Proof. repeat split; reflexivity. Qed.

Example init_fresh : init 50000%Z Sample.empty_disk = Ok Sample.fresh.
Proof. reflexivity. Qed.

(** ** Chunking *)

Section Chunks.
Context {A : Type}.
Implicit Types l : list A.

Lemma concat_chunks_take (b : nat) l m :
  concat ((fun k => take b (drop (k * b) l)) <$> seq 0 m) = take (m * b) l.
Proof.
  induction m as [|m IH].
  - by rewrite take_0.
  - rewrite seq_S, fmap_app, concat_app, IH. simpl.
    rewrite app_nil_r, take_take_drop. f_equal. lia.
Qed.

Lemma py_range_covers (n b : nat) : 0 < b -> n <= (n + b - 1) / b * b.
Proof.
  intros Hb. pose proof (Nat.div_mod_eq (n + b - 1) b) as E.
  pose proof (Nat.mod_upper_bound (n + b - 1) b) as U. nia.
Qed.

Lemma concat_chunks (b : nat) l :
  0 < b ->
  concat ((fun i => take b (drop i l)) <$> py_range (length l) b) = l.
Proof.
  intros Hb. unfold py_range. rewrite <- list_fmap_compose.
  etrans; [apply (concat_chunks_take b l)|].
  apply take_ge. by apply py_range_covers.
Qed.

Lemma py_range_lt (n b i : nat) : 0 < b -> i ∈ py_range n b -> i < n.
Proof.
  intros Hb. unfold py_range. rewrite list_elem_of_fmap.
  intros (k & -> & Hk). apply elem_of_seq in Hk.
  pose proof (Nat.div_mod_eq (n + b - 1) b) as E.
  pose proof (Nat.mod_upper_bound (n + b - 1) b) as U. nia.
Qed.

Lemma chunk_length (b i : nat) l :
  0 < b -> i < length l -> 0 < length (take b (drop i l)) <= b.
Proof. intros Hb Hi. rewrite length_take, length_drop. lia. Qed.
End Chunks.

(** ** The batch loop *)

Section FetchLoop.
Variable env : Env.
Variable missing : list string.

Lemma is_set_clock s s' : clock s = clock s' -> is_set env s = is_set env s'.
Proof. unfold is_set. by intros ->. Qed.

Lemma is_set_tick s : is_set env s = true -> is_set env (tick s) = true.
Proof.
  unfold is_set. destruct (stop_at env); [|done]. simpl.
  rewrite !bool_decide_eq_true. lia.
Qed.

Lemma fetch_batch_log i s ni :
  fetch_log (fetch_batch env missing i s ni).1
  = fetch_log s ++ [log_entry env missing i].
Proof.
  unfold fetch_batch, log_entry, batch_ok, chunk_at.
  destruct (execute_batch env i _); [done|].
  by case_bool_decide.
Qed.

Lemma fetch_batch_clock i s ni :
  clock (fetch_batch env missing i s ni).1 = clock s.
Proof.
  unfold fetch_batch. destruct (execute_batch env i _); [done|].
  by case_bool_decide.
Qed.

Lemma fetch_batch_scanned i s ni :
  scanned_count (sync (fetch_batch env missing i s ni).1)
  = scanned_count (sync s)
    + (if batch_ok env missing i then length (chunk_at missing i) else 0).
Proof.
  unfold fetch_batch, batch_ok, chunk_at.
  destruct (execute_batch env i _); simpl; [lia|].
  by case_bool_decide.
Qed.

(** The log only grows, by the entries of a prefix of the batches. *)
Lemma fetch_loop_log starts s ni :
  exists j, fetch_log (fetch_loop env missing starts s ni).1
            = fetch_log s ++ (log_entry env missing <$> take j starts).
Proof.
  revert s ni. induction starts as [|i rest IH]; intros s ni; simpl.
  - exists 0. by rewrite app_nil_r.
  - destruct (is_set env s).
    + exists 0. by rewrite app_nil_r.
    + destruct (fetch_batch env missing i (tick s) ni) as [s' ni'] eqn:E.
      destruct (IH s' ni') as [j Hj]. exists (S j).
      rewrite Hj. replace s' with (fetch_batch env missing i (tick s) ni).1
        by (by rewrite E).
      rewrite fetch_batch_log. simpl. by rewrite <- app_assoc.
Qed.

(** When the stop event is still unset after the loop, every batch ran. *)
Lemma fetch_loop_log_full starts s ni :
  is_set env (fetch_loop env missing starts s ni).1 = false ->
  fetch_log (fetch_loop env missing starts s ni).1
  = fetch_log s ++ (log_entry env missing <$> starts).
Proof.
  revert s ni. induction starts as [|i rest IH]; intros s ni; simpl.
  - by rewrite app_nil_r.
  - destruct (is_set env s) eqn:Hs.
    + simpl. intros Hf. by rewrite (is_set_tick _ Hs) in Hf.
    + destruct (fetch_batch env missing i (tick s) ni) as [s' ni'] eqn:E.
      intros Hf. rewrite (IH _ _ Hf).
      replace s' with (fetch_batch env missing i (tick s) ni).1
        by (by rewrite E).
      rewrite fetch_batch_log. simpl. by rewrite <- app_assoc.
Qed.

Lemma ok_ids_app l1 l2 : ok_ids (l1 ++ l2) = ok_ids l1 ++ ok_ids l2.
Proof. unfold ok_ids. by rewrite fmap_app, concat_app. Qed.

Lemma ok_ids_entry i :
  length (ok_ids [log_entry env missing i])
  = if batch_ok env missing i then length (chunk_at missing i) else 0.
Proof.
  unfold ok_ids, log_entry.
  destruct (batch_ok env missing i); cbn; [|done].
  by rewrite app_nil_r.
Qed.

Lemma fetch_loop_scanned_inv starts s ni :
  scanned_inv s -> scanned_inv (fetch_loop env missing starts s ni).1.
Proof.
  revert s ni. induction starts as [|i rest IH]; intros s ni Hs; simpl.
  - done.
  - destruct (is_set env s); [done|].
    destruct (fetch_batch env missing i (tick s) ni) as [s' ni'] eqn:E.
    apply IH. replace s' with (fetch_batch env missing i (tick s) ni).1
      by (by rewrite E).
    unfold scanned_inv in *.
    rewrite fetch_batch_scanned, fetch_batch_log, ok_ids_app, length_app,
      ok_ids_entry. simpl. by rewrite Hs.
Qed.
End FetchLoop.

(** ** Listing and the run as a whole *)

Section Run.
Variable env : Env.

Lemma list_messages_untouched pgs s messages n :
  match list_messages env pgs s messages n with
  | Done s' _ | Failed s' _ => untouched s s'
  end.
Proof.
  revert s messages n.
  induction pgs as [|[msg|batch_msgs] rest IH]; intros s messages n; simpl;
    destruct (is_set env s); try done.
  destruct (_ || _); [done|].
  specialize (IH (with_sync (set_total (n + length batch_msgs)) (tick s))
                (messages ++ batch_msgs) (n + length batch_msgs)).
  by destruct (list_messages _ _ _ _ _).
Qed.

Lemma prepare_untouched s0 :
  match prepare env s0 with
  | Aborted s | Ready s _ =>
      output_cache s = output_cache s0 /\ fetch_log s = fetch_log s0 /\
      disk s = disk s0 /\ scanned_count (sync s) = 0
  end.
Proof.
  unfold prepare. destruct (build_service env); [|done].
  pose proof (list_messages_untouched (pages env)
    (with_sync (set_status ListingMessages) (with_sync start_state s0)) [] 0) as H.
  destruct (list_messages _ _ _ _ _) as [s m|s m];
    destruct H as (? & ? & ? & ?); [|done].
  by destruct (is_set env s).
Qed.

(** Once the listing phase is over without a stop, the run can only end
    with the status [Complete]. *)
Lemma run_ready_status s0 s messages :
  prepare env s0 = Ready s messages -> status (sync (run env s0)) = Complete.
Proof. unfold run. by intros ->. Qed.

(** Whenever the batch phase is entered, however it is left, the run
    ends with a save of the merged in-memory cache. *)
Lemma run_persists_output_cache s0 s messages :
  prepare env s0 = Ready s messages ->
  missing_ids (output_cache s) messages <> [] ->
  content (disk (run env s0)) = Stored (output_cache (run env s0)).
Proof.
  unfold run. intros -> Hm.
  destruct (missing_ids (output_cache s) messages) as [|id l]; [done|].
  unfold fetch_details. by destruct (fetch_loop _ _ _ _ _).
Qed.

Lemma run_scanned_inv s0 :
  fetch_log s0 = [] -> scanned_inv (run env s0).
Proof.
  intros Hlog. unfold run, scanned_inv.
  pose proof (prepare_untouched s0) as H.
  destruct (prepare env s0) as [s|s messages];
    destruct H as (Hc & Hl & Hd & Hn); simpl.
  - by rewrite Hn, Hl, Hlog.
  - assert (scanned_inv (diffed s messages)) as Hinv.
    { unfold scanned_inv. simpl. by rewrite Hn, Hl, Hlog. }
    destruct (missing_ids (output_cache s) messages) as [|id l] eqn:Hm; [done|].
    unfold fetch_details.
    pose proof (fetch_loop_scanned_inv env (id :: l) (batch_starts (id :: l))
                  (diffed s messages) ∅ Hinv) as H.
    by destruct (fetch_loop _ _ _ _ _).
Qed.

Lemma killed_after_scanned_inv s0 M s :
  fetch_log s0 = [] -> killed_after env s0 M = Some s -> scanned_inv s.
Proof.
  intros Hlog. unfold killed_after.
  pose proof (prepare_untouched s0) as H.
  destruct (prepare env s0) as [?|s1 messages]; [done|].
  destruct H as (Hc & Hl & Hd & Hn). intros [= <-].
  apply fetch_loop_scanned_inv. unfold scanned_inv. simpl.
  by rewrite Hn, Hl, Hlog.
Qed.

(** Cancelled or not, a run sends the batches of a prefix of the batch
    sequence, in order. *)
Lemma run_attempted_prefix s0 s messages :
  fetch_log s0 = [] ->
  prepare env s0 = Ready s messages ->
  exists j,
    fetch_log (run env s0)
    = log_entry env (missing_ids (output_cache s0) messages)
        <$> take j (batch_starts (missing_ids (output_cache s0) messages)).
Proof.
  intros Hlog Hp. pose proof (prepare_untouched s0) as H.
  unfold run. rewrite Hp in *. destruct H as (Hc & Hl & Hd & Hn).
  rewrite Hc. set (missing := missing_ids (output_cache s0) messages).
  destruct missing as [|id l] eqn:Hm.
  { exists 0. simpl. by rewrite Hl, Hlog. }
  unfold fetch_details.
  destruct (fetch_loop_log env (id :: l) (batch_starts (id :: l))
              (diffed s messages) ∅) as [j Hj].
  exists j. destruct (fetch_loop _ _ _ _ _) as [s' ni]. simpl in *.
  by rewrite Hj, Hl, Hlog.
Qed.

Lemma run_attempted_full s0 s messages :
  fetch_log s0 = [] ->
  prepare env s0 = Ready s messages ->
  is_set env (run env s0) = false ->
  (fetch_log (run env s0)).*1
  = chunk_at (missing_ids (output_cache s0) messages)
      <$> batch_starts (missing_ids (output_cache s0) messages).
Proof.
  intros Hlog Hp. pose proof (prepare_untouched s0) as H.
  unfold run. rewrite Hp in *. destruct H as (Hc & Hl & Hd & Hn).
  rewrite Hc. set (missing := missing_ids (output_cache s0) messages).
  destruct missing as [|id l] eqn:Hm.
  { simpl. by rewrite Hl, Hlog. }
  unfold fetch_details.
  pose proof (fetch_loop_log_full env (id :: l) (batch_starts (id :: l))
                (diffed s messages) ∅) as Hfull.
  destruct (fetch_loop _ _ _ _ _) as [s' ni]. simpl in *.
  intros Hset. rewrite Hfull by (by rewrite <- Hset).
  rewrite Hl, Hlog. simpl. rewrite <- list_fmap_compose.
  by apply list_fmap_ext.
Qed.
(** Cancelled or not, a run never sends a request for a cached id. *)
Lemma run_never_fetches_cached s0 s messages :
  fetch_log s0 = [] ->
  prepare env s0 = Ready s messages ->
  Forall (fun id => output_cache s0 !! id = None) (attempted (run env s0)).
Proof.
  intros Hlog Hp.
  destruct (run_attempted_prefix s0 s messages Hlog Hp) as [j Hj].
  unfold attempted. rewrite Hj. apply Forall_concat, Forall_fmap, Forall_fmap.
  apply Forall_forall. intros i _. simpl. unfold chunk_at.
  apply Forall_forall. intros id Hid.
  eapply elem_of_sublist in Hid; [|apply sublist_take].
  eapply elem_of_sublist in Hid; [|apply sublist_drop].
  unfold missing_ids in Hid. by apply list_elem_of_filter in Hid as [? _].
Qed.

End Run.

(** ** Claims about the sync engine *)

(** C1.  A run that observes the stop signal before a batch of the
    FetchingDetails phase merges and persists what it has buffered, but it
    does not end in the Stopped status: the [break] falls through to the
    final save and to [status = "Complete"].  Here 250 ids are missing and
    the fifth call of [is_set()], the one before the third batch, is the
    first to answer [True]: two batches are fetched, their 200 records are
    in the persisted cache, and the final status is [Complete]. *)
Theorem stop_during_fetch_ends_complete :
  let s := run (Sample.env_of 250 Sample.all_ok (Some 4)) Sample.fresh in
  length (fetch_log s) = 2 /\
  clock s = 5 /\
  persisted (disk s) = output_cache s /\
  size (persisted (disk s)) = 200 /\
  status (sync s) = Complete /\
  status (sync s) <> StoppedByUser.
Proof. run_model. Qed.

(** C2, as stated, fails on a cancelled run: 150 ids are listed, none is
    cached, the stop signal is observed before the second batch, and only
    100 detail fetches are attempted. *)
Lemma cancelled_run_fetches_fewer :
  let env := Sample.env_of 150 Sample.all_ok (Some 3) in
  exists s messages,
    prepare env Sample.fresh = Ready s messages /\
    length messages = 150 /\
    length (filter (fun id => is_Some (output_cache Sample.fresh !! id)) messages) = 0 /\
    length (attempted (run env Sample.fresh)) = 100 /\
    length (attempted (run env Sample.fresh)) <> 150 - 0.
Proof.
  eexists _, _. split; [reflexivity|]. run_model.
Qed.

Lemma missing_ids_length (cache : Cache) (messages : list string) :
  length (missing_ids cache messages)
  = length messages - length (filter (fun id => is_Some (cache !! id)) messages).
Proof.
  unfold missing_ids. induction messages as [|id l IH]; [done|].
  rewrite !filter_cons. destruct (cache !! id) eqn:E.
  - rewrite decide_False by done. rewrite decide_True by done. simpl.
    rewrite IH. done.
  - rewrite decide_True by done. rewrite decide_False by (by intros [? ?]).
    simpl. rewrite IH.
    pose proof (length_filter (fun id => is_Some (cache !! id)) l). lia.
Qed.

(** C2, amended.  For every sync run that lists N ids of which K are keys
    of the loaded cache and in which the stop signal is never observed, the
    batches sent are the consecutive chunks of at most 100 of the N-K ids
    that are not in the cache, in listing order: exactly those ids are
    attempted, none of them is cached, and nothing is attempted when every
    listed id is cached. *)
Theorem fetches_exactly_missing (env : Env) (mr : Z) (d : Disk)
    (s0 s : Syncer) (messages : list string) :
  init mr d = Ok s0 ->
  prepare env s0 = Ready s messages ->
  is_set env (run env s0) = false ->
  let cached := filter (fun id => is_Some (output_cache s0 !! id)) messages in
  attempted (run env s0) = missing_ids (output_cache s0) messages /\
  length (attempted (run env s0)) = length messages - length cached /\
  Forall (fun b => 0 < length b.1 <= BATCH_SIZE) (fetch_log (run env s0)) /\
  Forall (fun id => output_cache s0 !! id = None) (attempted (run env s0)) /\
  (length cached = length messages -> fetch_log (run env s0) = []).
Proof.
  intros Hinit Hp Hstop cached.
  assert (fetch_log s0 = []) as Hlog.
  { unfold init in Hinit. destruct (load_cache d); by simplify_eq. }
  pose proof (run_attempted_full env s0 s messages Hlog Hp Hstop) as Hfull.
  assert (attempted (run env s0) = missing_ids (output_cache s0) messages) as Ha.
  { unfold attempted. rewrite Hfull. apply concat_chunks. unfold BATCH_SIZE. lia. }
  split; [done|]. split; [by rewrite Ha, missing_ids_length|].
  split; [|split].
  - assert (Forall (fun l : list string => 0 < length l <= BATCH_SIZE)
              (fetch_log (run env s0)).*1) as HF.
    { rewrite Hfull. apply Forall_fmap, Forall_forall.
      intros i Hi. apply py_range_lt in Hi; [|unfold BATCH_SIZE; lia].
      apply chunk_length; [unfold BATCH_SIZE; lia|done]. }
    by apply Forall_fmap in HF.
  - rewrite Ha. unfold missing_ids. apply Forall_forall.
    intros id Hid. by apply list_elem_of_filter in Hid as [? _].
  - intros Hall. pose proof (missing_ids_length (output_cache s0) messages) as Hm.
    fold cached in Hm. rewrite Hall, Nat.sub_diag in Hm.
    apply nil_length_inv in Hm.
    apply (f_equal length) in Hfull. rewrite Hm in Hfull.
    rewrite !length_fmap in Hfull. by apply nil_length_inv.
Qed.

Lemma fetches_exactly_missing_witness :
  let env := Sample.env_of 3 Sample.all_ok None in
  attempted (run env Sample.fresh)
  = missing_ids (output_cache Sample.fresh) (Sample.mailbox 3).
Proof.
  intros env.
  refine (proj1 (fetches_exactly_missing env 50000%Z Sample.empty_disk
                   Sample.fresh _ (Sample.mailbox 3) _ _ _)).
  - reflexivity.
  - vm_compute. reflexivity.
  - reflexivity.
Defined.

(** C7, as stated, fails: [scanned_count] is raised by the size of a batch
    as soon as its [execute()] returns.  With one missing id whose request
    is answered by an error, the run ends with [scanned_count = 1] and an
    empty cache; with 250 missing ids, after the second batch
    [scanned_count] is 200 while only the 100 records of the first batch
    have been merged into the cache. *)
Lemma scanned_count_not_merged_count :
  let s := run (Sample.env_of 1 Sample.all_gone None) Sample.fresh in
  let env2 := Sample.env_of 250 Sample.all_ok None in
  (scanned_count (sync s) = 1 /\ output_cache s = ∅ /\
   scanned_count (sync s) <> size (output_cache s)) /\
  exists s2, killed_after env2 Sample.fresh 2 = Some s2 /\
    scanned_count (sync s2) = 200 /\ size (output_cache s2) = 100.
Proof.
  split; [run_model|].
  eexists. split; [reflexivity|]. run_model.
Qed.

(** C7, amended.  At the end of a sync run, and at every point between two
    batches of it, [scanned_count] is the total number of ids in the
    batches whose batched request has returned so far without a
    batch-level failure. *)
Theorem scanned_count_counts_executed (env : Env) (mr : Z) (d : Disk)
    (s0 : Syncer) :
  init mr d = Ok s0 ->
  scanned_count (sync (run env s0)) = length (ok_ids (fetch_log (run env s0))) /\
  forall M s, killed_after env s0 M = Some s ->
    scanned_count (sync s) = length (ok_ids (fetch_log s)).
Proof.
  intros Hinit.
  assert (fetch_log s0 = []) as Hlog.
  { unfold init in Hinit. destruct (load_cache d); by simplify_eq. }
  split.
  - by apply run_scanned_inv.
  - intros M s Hk. by apply (killed_after_scanned_inv env s0 M s).
Qed.

Lemma scanned_count_counts_executed_witness :
  let s := run (Sample.env_of 250 (Sample.fails_at 100) None) Sample.fresh in
  scanned_count (sync s) = length (ok_ids (fetch_log s)).
Proof.
  exact (proj1 (scanned_count_counts_executed
                  (Sample.env_of 250 (Sample.fails_at 100) None)
                  50000%Z Sample.empty_disk Sample.fresh eq_refl)).
Defined.

(** C3.  The checkpoint is taken inside the [try], after [execute()], and
    only when the start index of the batch is a multiple of 500.  With
    1010 missing ids and a remote whose batch at index 500 raises, a
    process killed after 10 of the 11 batches has saved once, after the
    first batch: the persisted cache holds the records of ids m0..m99 and
    none of the 800 records fetched by batches 2-5 and 7-10. *)
Theorem checkpoint_lost_when_its_batch_fails :
  let env := Sample.env_of 1010 (Sample.fails_at 500) None in
  exists s, killed_after env Sample.fresh 10 = Some s /\
    length (fetch_log s) = 10 /\
    length (ok_ids (fetch_log s)) = 900 /\
    saves (disk s) = 1 /\
    size (persisted (disk s)) = 100 /\
    persisted (disk s) !! Sample.id_of 100 = None /\
    persisted (disk s) !! Sample.id_of 499 = None /\
    persisted (disk s) !! Sample.id_of 999 = None.
Proof.
  eexists. split; [reflexivity|]. run_model.
Qed.

(** The same with a remote that never fails and 600 missing ids: after
    five complete batches only the first one has been persisted. *)
Example checkpoint_after_first_batch_only :
  let env := Sample.env_of 600 Sample.all_ok None in
  exists s, killed_after env Sample.fresh 5 = Some s /\
    scanned_count (sync s) = 500 /\
    saves (disk s) = 1 /\
    size (persisted (disk s)) = 100 /\
    persisted (disk s) !! Sample.id_of 100 = None.
Proof.
  eexists. split; [reflexivity|]. run_model.
Qed.

(** ** Cache store *)

Lemma load_cache_persisted (d : Disk) : load_cache d = Ok (persisted d).
Proof. unfold load_cache, persisted. by destruct (content d). Qed.

Lemma persisted_save (cache : Cache) (d : Disk) :
  persisted (save_cache cache d) = cache.
Proof. done. Qed.

Lemma saves_save (cache : Cache) (d : Disk) :
  saves (save_cache cache d) = S (saves d).
Proof. done. Qed.

(** On a file that is absent, unreadable or holds an object, [load_cache]
    is [AnyFile.load_cache]. *)
Lemma load_cache_file_state (d : Disk) :
  AnyFile.load_cache (file_state (content d)) = Ok (JObject (persisted d)) /\
  load_cache d = Ok (persisted d).
Proof. unfold load_cache, persisted. by destruct (content d). Qed.

(** What [load_cache] returns is a mapping unless the file holds a JSON
    value that is not an object. *)
Lemma load_cache_dict (f : FileState) (v : Json) :
  AnyFile.load_cache f = Ok v ->
  is_dict v = false -> f = Holds v.
Proof. destruct f as [| |w]; cbn; intros [= <-]; done. Qed.

(** C8.  [load_cache] never raises, whatever the file holds, and it
    returns the empty mapping when the file is absent or unreadable and
    the stored mapping when the file holds an object.  But it does not
    always return a mapping: when the file holds the JSON text [[1]],
    which is no cache, it returns the list [[1]]. *)
Theorem load_cache_returns_a_list :
  (forall f, exists v, AnyFile.load_cache f = Ok v) /\
  AnyFile.load_cache NoFile = Ok (JObject ∅) /\
  AnyFile.load_cache Unreadable = Ok (JObject ∅) /\
  (forall m, AnyFile.load_cache (Holds (JObject m)) = Ok (JObject m)) /\
  AnyFile.load_cache (Holds (JArray [JNumber 1])) = Ok (JArray [JNumber 1]) /\
  is_dict (JArray [JNumber 1]) = false.
Proof.
  split; [|done].
  intros [| |v]; eexists; reflexivity.
Qed.

(** ** Deletion coordinator *)

Section Deletion.
Variable service : TrashService.

Lemma trash_loop_trashed message_ids :
  trash_loop service message_ids = trashed service message_ids.
Proof.
  unfold trash_loop, trashed.
  enough (forall l acc,
    foldl (fun cleaned_ids (b : nat * list string) =>
             match service b.1 b.2 with
             | Ok _ => cleaned_ids ++ b.2
             | Raise _ => cleaned_ids
             end) acc l
    = acc ++ concat ((fun b : nat * list string =>
                        if is_ok (service b.1 b.2) then b.2 else []) <$> l))
    as H by apply (H _ []).
  induction l as [|b l IH]; intros acc; simpl.
  - by rewrite app_nil_r.
  - rewrite IH. destruct (service b.1 b.2); simpl; [by rewrite app_assoc|done].
Qed.

Lemma trash_batches_partition message_ids :
  concat (trash_batches message_ids).*2 = message_ids /\
  Forall (fun b => length b.2 <= TRASH_BATCH) (trash_batches message_ids).
Proof.
  unfold trash_batches. split.
  - rewrite <- list_fmap_compose.
    apply (concat_chunks TRASH_BATCH). unfold TRASH_BATCH. lia.
  - apply Forall_fmap, Forall_forall. intros i _. simpl.
    rewrite length_take. lia.
Qed.

Lemma remove_ids_delete cleaned_ids (cache : Cache) :
  remove_ids cleaned_ids cache = foldl (fun c mid => delete mid c) cache cleaned_ids.
Proof.
  unfold remove_ids. revert cache.
  induction cleaned_ids as [|mid l IH]; intros cache; simpl; [done|].
  rewrite IH. f_equal. case_bool_decide as Hk; [done|].
  symmetry. apply delete_id.
  destruct (cache !! mid) eqn:E; [|done]. exfalso. apply Hk. by eexists.
Qed.

Lemma remove_ids_lookup cleaned_ids (cache : Cache) k :
  remove_ids cleaned_ids cache !! k
  = if bool_decide (k ∈ cleaned_ids) then None else cache !! k.
Proof.
  rewrite remove_ids_delete. revert cache.
  induction cleaned_ids as [|mid l IH]; intros cache; simpl; [done|].
  rewrite IH. destruct (decide (k = mid)) as [->|Hne].
  - rewrite lookup_delete_eq. rewrite (bool_decide_eq_true_2 (mid ∈ mid :: l))
      by apply list_elem_of_here. by case_bool_decide.
  - rewrite lookup_delete_ne by done.
    rewrite (bool_decide_ext (k ∈ mid :: l) (k ∈ l)); [done|].
    rewrite elem_of_cons. split; [by intros [?|?]|by right].
Qed.
End Deletion.

(** C4, as stated, fails in two ways.  (1) When no batch succeeds the
    cache is not persisted at all: the call below returns 0 and leaves the
    disk as it was, without a save.  (2) An id of a failed batch is removed
    from the cache when it also occurs in a batch that succeeded: with 1001
    ids whose last one repeats the first, a first batch that succeeds and a
    second one that fails, the record of [m0] is removed. *)
Lemma delete_messages_not_as_stated :
  let d := {| content := Stored {[ "a" := Sample.record_of "x@example.com" 1 ]};
              saves := 0 |} in
  let ids := Sample.mailbox 1000 ++ [Sample.id_of 0] in
  let first_only : TrashService :=
    fun i _ => if bool_decide (i = 0) then Ok tt else Raise "HttpError" in
  let d0 := {| content := Stored {[ Sample.id_of 0 := Sample.record_of "x@example.com" 1 ]};
               saves := 0 |} in
  (delete_messages (fun _ _ => Raise "HttpError") d ["a"] = Ok (0, d) /\
   saves d <> 1) /\
  (trash_batches ids !! 1 = Some (1000, [Sample.id_of 0]) /\
   is_ok (first_only 1000 [Sample.id_of 0]) = false /\
   persisted d0 !! Sample.id_of 0 <> None /\
   exists d', delete_messages first_only d0 ids = Ok (1000, d') /\
              persisted d' !! Sample.id_of 0 = None).
Proof.
  split; [run_model|]. split; [run_model|]. split; [run_model|].
  split; [run_model|]. eexists. split; [reflexivity|]. run_model.
Qed.

(** C4, amended.  The ids are partitioned into consecutive batches of at
    most 1000.  The operation returns the total number of ids in the
    batches whose remote call succeeded; every such id is absent from the
    cache afterwards; an id that occurs in no successful batch keeps its
    cache entry; the cache is persisted exactly once, after all batches,
    when at least one batch succeeded, and the disk is not touched
    otherwise. *)
Theorem delete_messages_spec (service : TrashService) (d : Disk)
    (message_ids : list string) :
  let cleaned := trashed service message_ids in
  (concat (trash_batches message_ids).*2 = message_ids /\
   Forall (fun b => length b.2 <= TRASH_BATCH) (trash_batches message_ids)) /\
  exists d', delete_messages service d message_ids = Ok (length cleaned, d') /\
    (forall id, id ∉ cleaned -> persisted d' !! id = persisted d !! id) /\
    (forall id, id ∈ cleaned -> persisted d' !! id = None) /\
    saves d' = saves d + (if bool_decide (cleaned = []) then 0 else 1) /\
    (cleaned = [] -> d' = d).
Proof.
  intros cleaned. split; [apply trash_batches_partition|].
  unfold delete_messages. rewrite trash_loop_trashed. fold cleaned.
  assert (message_ids = [] -> cleaned = []) as Hnil by (by intros ->).
  clearbody cleaned.
  destruct message_ids as [|m l].
  { rewrite Hnil by done. exists d. rewrite bool_decide_eq_true_2 by done.
    repeat split; try done; try lia; set_solver. }
  destruct cleaned as [|c cl].
  { exists d. rewrite bool_decide_eq_true_2 by done.
    repeat split; try done; try lia; set_solver. }
  rewrite load_cache_persisted. eexists. split; [reflexivity|].
  rewrite bool_decide_eq_false_2 by done.
  rewrite persisted_save, saves_save.
  repeat split.
  - intros id Hid. rewrite remove_ids_lookup. by rewrite bool_decide_eq_false_2.
  - intros id Hid. rewrite remove_ids_lookup. by rewrite bool_decide_eq_true_2.
  - lia.
  - done.
Qed.

(** C10.  Whatever cache file and id list the deletion operation gets, it
    returns, and afterwards every cache entry whose key is not among the
    successfully trashed ids is the entry it was, and every entry of the
    cache was already there with the same record: nothing is added or
    changed. *)
Theorem delete_messages_frame (service : TrashService) (d : Disk)
    (message_ids : list string) :
  exists n d', delete_messages service d message_ids = Ok (n, d') /\
    (forall k, k ∉ trashed service message_ids ->
               persisted d' !! k = persisted d !! k) /\
    persisted d' ⊆ persisted d.
Proof.
  unfold delete_messages. rewrite trash_loop_trashed.
  destruct message_ids as [|m l] eqn:Hm.
  { by exists 0, d. }
  rewrite <- Hm. generalize (trashed service message_ids). intros cleaned.
  destruct cleaned as [|c cl] eqn:Hc.
  { by exists 0, d. }
  rewrite load_cache_persisted. eexists _, _. split; [reflexivity|].
  rewrite persisted_save. split.
  - intros k Hk. rewrite remove_ids_lookup. by rewrite bool_decide_eq_false_2.
  - apply map_subseteq_spec. intros k v. rewrite remove_ids_lookup.
    by case_bool_decide.
Qed.

(** ** Stats aggregator *)

Section Touch.
Variable e : string.
Variable f : SenderStat -> SenderStat.
Hypothesis f_email : forall st, stat_email (f st) = stat_email st.

Lemma touch_emails l :
  stat_email <$> touch e f l
  = if bool_decide (e ∈ stat_email <$> l) then stat_email <$> l
    else (stat_email <$> l) ++ [e].
Proof.
  induction l as [|st rest IH].
  - simpl. by rewrite f_email.
  - cbn [touch]. rewrite fmap_cons.
    destruct (decide (stat_email st = e)) as [He|He].
    + rewrite bool_decide_eq_true_2 by done. rewrite fmap_cons, f_email.
      rewrite bool_decide_eq_true_2; [done|]. rewrite He. left.
    + rewrite bool_decide_eq_false_2 by done. rewrite fmap_cons, IH.
      rewrite (bool_decide_ext (e ∈ stat_email st :: (stat_email <$> rest))
                 (e ∈ stat_email <$> rest)).
      { by destruct (bool_decide _). }
      rewrite elem_of_cons. split; [intros [?|?]; [congruence|done]|by right].
Qed.

Lemma touch_elem_of x l :
  x ∈ stat_email <$> touch e f l <-> x = e \/ x ∈ stat_email <$> l.
Proof.
  rewrite touch_emails. case_bool_decide as He.
  - split; [by right|]. by intros [->|?].
  - rewrite elem_of_app, list_elem_of_singleton. tauto.
Qed.

Lemma touch_NoDup l :
  NoDup (stat_email <$> l) -> NoDup (stat_email <$> touch e f l).
Proof.
  intros Hl. rewrite touch_emails. case_bool_decide as He; [done|].
  apply NoDup_app. split; [done|]. split.
  - intros x Hx ->%list_elem_of_singleton. done.
  - apply NoDup_singleton.
Qed.

(** With distinct keys, [touch] changes the entry of [e] by [f], or adds
    [f] of the default entry, and leaves every other entry alone. *)
Lemma touch_Forall (P Q : SenderStat -> Prop) l :
  NoDup (stat_email <$> l) ->
  Forall P l ->
  (forall st, P st -> stat_email st <> e -> Q st) ->
  (forall st, P st -> stat_email st = e -> Q (f st)) ->
  (e ∉ stat_email <$> l -> Q (f (default_stat e))) ->
  Forall Q (touch e f l).
Proof.
  intros Hnd HP Hother Hsame Hnew.
  induction HP as [|st rest Hst Hrest IH]; simpl.
  - apply Forall_singleton, Hnew. set_solver.
  - rewrite fmap_cons in Hnd. apply NoDup_cons in Hnd as [Hhd Hnd].
    case_bool_decide as He.
    + apply Forall_cons. split; [by apply Hsame|].
      apply Forall_forall. intros st' Hst'.
      apply Hother; [by eapply Forall_forall in Hrest|].
      intros Heq. apply Hhd. rewrite He, <- Heq.
      by apply list_elem_of_fmap_2.
    + apply Forall_cons. split; [by apply Hother|].
      apply IH; [done|]. intros Hn. apply Hnew.
      rewrite fmap_cons, elem_of_cons. intros [?|?]; [by apply He|done].
Qed.
End Touch.

Lemma touch_sum e mid data l :
  sum_list (count <$> touch e (bump mid data) l) = S (sum_list (count <$> l)).
Proof.
  induction l as [|st rest IH]; [done|]. cbn [touch].
  destruct (decide (stat_email st = e)) as [He|He].
  - by rewrite bool_decide_eq_true_2 by done.
  - rewrite bool_decide_eq_false_2 by done. rewrite !fmap_cons. cbn [sum_list].
    rewrite IH. lia.
Qed.

Section Sorting.
Lemma insert_by_count_perm x l : insert_by_count x l ≡ₚ x :: l.
Proof.
  induction l as [|y rest IH]; simpl; [done|].
  case_bool_decide; [done|]. rewrite IH. apply Permutation_swap.
Qed.

Lemma sorted_by_count_perm l : sorted_by_count l ≡ₚ l.
Proof.
  induction l as [|x rest IH]; simpl; [done|].
  by rewrite insert_by_count_perm, IH.
Qed.

Lemma insert_by_count_sorted x l :
  StronglySorted by_count_desc l ->
  StronglySorted by_count_desc (insert_by_count x l).
Proof.
  induction 1 as [|y rest Hrest IH Hy]; simpl.
  - repeat constructor.
  - case_bool_decide as Hc.
    + constructor; [by constructor|]. constructor; [done|].
      eapply Forall_impl; [exact Hy|]. unfold by_count_desc. simpl. lia.
    + constructor; [done|]. rewrite insert_by_count_perm.
      constructor; [|done]. unfold by_count_desc. lia.
Qed.

Lemma sorted_by_count_sorted l : StronglySorted by_count_desc (sorted_by_count l).
Proof.
  induction l as [|x rest IH]; simpl; [constructor|].
  by apply insert_by_count_sorted.
Qed.
End Sorting.

Section Loop.
Variable before_ts : option Z.
Variable target_category : option string.

Local Abbreviation keep := (survives before_ts target_category).
Local Abbreviation step := (aggregate_step before_ts target_category).
Local Abbreviation ids_for := (kept_of before_ts target_category).

Lemma aggregate_step_drop a mid data :
  keep data = false -> step a (mid, data) = a.
Proof.
  unfold survives, aggregate_step.
  destruct (date_excludes before_ts data); [done|].
  by destruct (category_excludes target_category data).
Qed.

Lemma aggregate_step_keep a mid data :
  keep data = true ->
  agg_total (step a (mid, data)) = S (agg_total a) /\
  agg_stats (step a (mid, data))
  = touch (sender data) (bump mid data) (agg_stats a).
Proof.
  unfold survives, aggregate_step.
  destruct (date_excludes before_ts data); [done|].
  by destruct (category_excludes target_category data).
Qed.

Lemma kept_of_snoc e items mid data :
  ids_for e (items ++ [(mid, data)])
  = ids_for e items
    ++ (if bool_decide (keep data = true /\ sender data = e) then [mid] else []).
Proof.
  unfold kept_of. rewrite filter_app, fmap_app. f_equal.
  rewrite filter_cons, filter_nil. simpl.
  case_bool_decide; [by rewrite decide_True|by rewrite decide_False].
Qed.

Lemma loop_inv_step items a mid data :
  loop_inv before_ts target_category items a ->
  loop_inv before_ts target_category (items ++ [(mid, data)]) (step a (mid, data)).
Proof.
  intros [Ht Hs Hn Hi Hp]. destruct (keep data) eqn:Hk.
  - destruct (aggregate_step_keep a mid data Hk) as [Et Es].
    constructor.
    + rewrite Et, Ht, filter_app, length_app, filter_cons, filter_nil.
      simpl. rewrite decide_True by done. simpl. lia.
    + rewrite Es, Et, touch_sum. by rewrite Hs.
    + rewrite Es. by apply touch_NoDup.
    + rewrite Es. eapply touch_Forall; [done|done|exact Hi|..].
      * intros st (Hids & Hc & Hpos) Hne. rewrite kept_of_snoc.
        rewrite bool_decide_eq_false_2 by (by intros [_ ?]).
        by rewrite app_nil_r.
      * intros st (Hids & Hc & Hpos) He. simpl. rewrite kept_of_snoc.
        rewrite bool_decide_eq_true_2 by done.
        split; [by rewrite Hids|]. rewrite length_app, Hc. simpl. lia.
      * intros Hnot. simpl. rewrite kept_of_snoc.
        rewrite bool_decide_eq_true_2 by done.
        destruct (ids_for (sender data) items) as [|x xs] eqn:E.
        { simpl. split; [done|]. lia. }
        exfalso. apply Hnot, Hp. by rewrite E.
    + intros e He. rewrite Es. apply touch_elem_of; [done|].
      rewrite kept_of_snoc in He. case_bool_decide as Hb.
      * left. by destruct Hb.
      * right. apply Hp. by rewrite app_nil_r in He.
  - rewrite aggregate_step_drop by done. constructor; try done.
    + rewrite Ht, filter_app, length_app, filter_cons, filter_nil. simpl.
      rewrite decide_False by (by rewrite Hk). simpl. lia.
    + eapply Forall_impl; [exact Hi|]. intros st (Hids & Hc & Hpos).
      rewrite kept_of_snoc, bool_decide_eq_false_2, app_nil_r; [done|].
      rewrite Hk. by intros [? _].
    + intros e He. apply Hp. rewrite kept_of_snoc in He.
      rewrite bool_decide_eq_false_2, app_nil_r in He; [done|].
      rewrite Hk. by intros [? _].
Qed.

Lemma aggregate_loop_inv items :
  loop_inv before_ts target_category items
    (aggregate_loop before_ts target_category items).
Proof.
  unfold aggregate_loop. induction items as [|[mid data] items IH] using rev_ind.
  - constructor; simpl; try done. constructor.
  - rewrite foldl_app. simpl. by apply loop_inv_step.
Qed.
End Loop.

Section LoopFacts.
Variable before_ts : option Z.
Variable target_category : option string.
Variable items : list (string * CacheRecord).

Local Abbreviation keep := (survives before_ts target_category).
Local Abbreviation ids_for := (kept_of before_ts target_category).
Local Abbreviation a := (aggregate_loop before_ts target_category items).

Lemma elem_of_kept_of e mid :
  mid ∈ ids_for e items <->
  exists data, (mid, data) ∈ items /\ keep data = true /\ sender data = e.
Proof.
  unfold kept_of. rewrite list_elem_of_fmap. split.
  - intros ([mid' data] & -> & Hin). apply list_elem_of_filter in Hin.
    destruct Hin as [[Hk He] Hin]. by exists data.
  - intros (data & Hin & Hk & He). exists (mid, data). split; [done|].
    by apply list_elem_of_filter.
Qed.

Lemma stat_of_sender e :
  e ∈ stat_email <$> agg_stats a <->
  exists mid data, (mid, data) ∈ items /\ keep data = true /\ sender data = e.
Proof.
  destruct (aggregate_loop_inv before_ts target_category items)
    as [_ _ _ Hi Hp]. split.
  - intros (st & -> & Hst)%list_elem_of_fmap.
    eapply Forall_forall in Hi as (Hids & Hc & Hpos); [|exact Hst].
    destruct (ids st) as [|mid rest] eqn:E; [simpl in Hc; lia|].
    assert (mid ∈ ids_for (stat_email st) items) as Hm
      by (rewrite <- Hids; left).
    apply elem_of_kept_of in Hm as (data & ? & ? & ?). by exists mid, data.
  - intros (mid & data & Hin & Hk & He). apply Hp.
    assert (mid ∈ ids_for e items) as Hm
      by (apply elem_of_kept_of; by exists data).
    intros Hnil. rewrite Hnil in Hm. by apply not_elem_of_nil in Hm.
Qed.

Lemma stat_unique st st' :
  st ∈ agg_stats a -> st' ∈ agg_stats a ->
  stat_email st = stat_email st' -> st = st'.
Proof.
  destruct (aggregate_loop_inv before_ts target_category items)
    as [_ _ Hn _ _].
  revert Hn. generalize (agg_stats a). intros l.
  induction l as [|x l IH]; intros Hn H1 H2 He.
  { by apply not_elem_of_nil in H1. }
  rewrite fmap_cons in Hn. apply NoDup_cons in Hn as [Hx Hn].
  apply elem_of_cons in H1 as [->|H1]; apply elem_of_cons in H2 as [->|H2].
  - done.
  - exfalso. apply Hx. rewrite He. by apply list_elem_of_fmap_2.
  - exfalso. apply Hx. rewrite <- He. by apply list_elem_of_fmap_2.
  - by apply IH.
Qed.

Hypothesis items_functional :
  forall mid d1 d2, (mid, d1) ∈ items -> (mid, d2) ∈ items -> d1 = d2.

(** A surviving record is filed under its sender, and nowhere else. *)
Lemma survivor_filed_once mid data :
  (mid, data) ∈ items -> keep data = true ->
  exists st, st ∈ agg_stats a /\ stat_email st = sender data /\ mid ∈ ids st /\
    forall st', st' ∈ agg_stats a -> mid ∈ ids st' -> st' = st.
Proof.
  intros Hin Hk.
  pose proof (aggregate_loop_inv before_ts target_category items)
    as [_ _ _ Hi _].
  assert (sender data ∈ stat_email <$> agg_stats a) as Hs
    by (apply stat_of_sender; by exists mid, data).
  apply list_elem_of_fmap in Hs as (st & He & Hst). exists st.
  pose proof Hi as Hi'.
  eapply Forall_forall in Hi' as (Hids & _ & _); [|exact Hst].
  split; [done|]. split; [done|]. split.
  - rewrite Hids. apply elem_of_kept_of. exists data. by rewrite <- He.
  - intros st' Hst' Hm.
    eapply Forall_forall in Hi as (Hids' & _ & _); [|exact Hst'].
    rewrite Hids' in Hm. apply elem_of_kept_of in Hm as (data' & Hin' & _ & He').
    rewrite (items_functional mid data' data Hin' Hin) in He'.
    apply stat_unique; [done|done|]. by rewrite <- He', <- He.
Qed.
End LoopFacts.

Lemma map_to_list_functional (m : Cache) k d1 d2 :
  (k, d1) ∈ map_to_list m -> (k, d2) ∈ map_to_list m -> d1 = d2.
Proof. rewrite !elem_of_map_to_list. congruence. Qed.

Lemma survives_no_filter data : survives None None data = true.
Proof. done. Qed.

(** C5.  Without filters the aggregation returns one SenderStat per
    distinct sender email of the cache (no email twice, and exactly the
    emails that some record has), the count of each is the number of
    records of that sender, and the sequence is in descending order of
    count. *)
Theorem stats_without_filters (mktime : LocalTime) (d : Disk) :
  exists r, fetch_email_stats mktime d None = Ok r /\
    NoDup (stat_email <$> stats r) /\
    (forall e, e ∈ stat_email <$> stats r <->
       exists mid data, persisted d !! mid = Some data /\ sender data = e) /\
    (forall st, st ∈ stats r ->
       count st = length (filter (fun it : string * CacheRecord =>
                                    sender it.2 = stat_email st)
                            (map_to_list (persisted d)))) /\
    StronglySorted by_count_desc (stats r).
Proof.
  unfold fetch_email_stats. rewrite load_cache_persisted.
  case_bool_decide as Hempty.
  { eexists. split; [done|]. simpl. rewrite Hempty.
    split; [constructor|]. split; [|split; [|constructor]].
    - intros e. split; [by intros ?%not_elem_of_nil|].
      intros (mid & data & Hl & _). by rewrite lookup_empty in Hl.
    - by intros st ?%not_elem_of_nil. }
  simpl. set (items := map_to_list (persisted d)).
  eexists. split; [done|]. simpl.
  pose proof (aggregate_loop_inv None None items) as [_ _ Hn Hi _].
  split; [by rewrite sorted_by_count_perm|]. split; [|split].
  - intros e. rewrite sorted_by_count_perm, stat_of_sender.
    split.
    + intros (mid & data & Hin & _ & He). exists mid, data.
      by apply elem_of_map_to_list in Hin.
    + intros (mid & data & Hl & He). exists mid, data.
      split; [by apply elem_of_map_to_list|done].
  - intros st Hst. rewrite sorted_by_count_perm in Hst.
    eapply Forall_forall in Hi as (Hids & Hc & _); [|exact Hst].
    rewrite Hc, Hids. unfold kept_of. rewrite length_fmap. f_equal.
    apply list_filter_iff. intros [mid data]. simpl.
    split; [by intros [_ ?]|done].
  - apply sorted_by_count_sorted.
Qed.

(** C9.  For every cache and every query, the counts of the returned
    SenderStats add up to [total_scanned], which is the number of
    surviving records, and the id of each surviving record is in the
    [ids] of the SenderStat of its sender email and of no other
    SenderStat; no email has two SenderStats. *)
Theorem stats_partition_survivors (mktime : LocalTime) (d : Disk)
    (query : option string) :
  let before_ts := (query_filters mktime query).1 in
  let target_category := (query_filters mktime query).2 in
  exists r, fetch_email_stats mktime d query = Ok r /\
    sum_list (count <$> stats r) = total_scanned r /\
    total_scanned r
    = length (filter (fun it : string * CacheRecord =>
                        survives before_ts target_category it.2 = true)
                (map_to_list (persisted d))) /\
    NoDup (stat_email <$> stats r) /\
    forall mid data,
      persisted d !! mid = Some data ->
      survives before_ts target_category data = true ->
      exists st, st ∈ stats r /\ stat_email st = sender data /\ mid ∈ ids st /\
        forall st', st' ∈ stats r -> mid ∈ ids st' -> st' = st.
Proof.
  intros before_ts target_category.
  unfold fetch_email_stats. rewrite load_cache_persisted.
  case_bool_decide as Hempty.
  { eexists. split; [done|]. simpl. rewrite Hempty, map_to_list_empty.
    split; [done|]. split; [done|]. split; [constructor|].
    intros mid data Hl. by rewrite lookup_empty in Hl. }
  subst before_ts target_category.
  destruct (query_filters mktime query) as [before_ts target_category].
  simpl. set (items := map_to_list (persisted d)).
  eexists. split; [done|]. simpl.
  pose proof (aggregate_loop_inv before_ts target_category items)
    as [Ht Hs Hn _ _].
  split; [by rewrite sorted_by_count_perm|]. split; [done|].
  split; [by rewrite sorted_by_count_perm|].
  intros mid data Hl Hk.
  destruct (survivor_filed_once before_ts target_category items
              (map_to_list_functional (persisted d)) mid data)
    as (st & Hst & He & Hm & Huniq); [by apply elem_of_map_to_list|done|].
  exists st. rewrite sorted_by_count_perm. repeat split; try done.
  intros st' Hst'. rewrite sorted_by_count_perm in Hst'. by apply Huniq.
Qed.

(** The date test of the loop, for a cutoff that is not zero. *)
Lemma date_excludes_nonzero (t : Z) (data : CacheRecord) :
  t <> 0%Z ->
  date_excludes (Some t) data = true <-> (t ≤ record_ts data)%Z.
Proof.
  intros Ht. unfold date_excludes.
  rewrite bool_decide_eq_true_2 by done. simpl. apply bool_decide_eq_true.
Qed.

(** A cutoff of zero is a false value: the date test is skipped. *)
Lemma date_excludes_zero (data : CacheRecord) :
  date_excludes (Some 0%Z) data = false.
Proof. done. Qed.

(** C6.  On a host whose local time is UTC the query [before:1970-01-01]
    is well formed and its cutoff is local midnight of that day, epoch
    millisecond 0.  [before_ts] is then 0, which Python takes for false in
    [if before_ts and ...], so the date filter is not applied: the record
    below, whose [last_date] 1000 is not before the cutoff, is counted. *)
Theorem before_epoch_filter_is_skipped :
  let d := {| content := Stored {[ "m1" := Sample.record_of "x@example.com" 1000 ]};
              saves := 0 |} in
  let query := Some "before:1970-01-01" in
  query_filters UTC.mktime query = (Some 0%Z, None) /\
  (0 ≤ record_ts (Sample.record_of "x@example.com" 1000))%Z /\
  survives (Some 0%Z) None (Sample.record_of "x@example.com" 1000) = true /\
  exists r, fetch_email_stats UTC.mktime d query = Ok r /\
    total_scanned r = 1 /\
    (stat_email <$> stats r) = ["x@example.com"] /\
    (ids <$> stats r) = [["m1"]].
Proof.
  split; [run_model|]. split; [run_model|]. split; [run_model|].
  eexists. split; [reflexivity|]. run_model.
Qed.

(** The date example of the specification on the UTC host: a record dated
    2023-06-01T00:00:00Z is left out by [before:2023-06-01] and counted by
    [before:2023-06-02]. *)
Example before_date_on_utc_host :
  let d := {| content := Stored {[ "m1" := Sample.record_of "x@example.com" 1685577600000 ]};
              saves := 0 |} in
  (exists r, fetch_email_stats UTC.mktime d (Some "before:2023-06-01") = Ok r /\
             total_scanned r = 0 /\ stats r = []) /\
  (exists r, fetch_email_stats UTC.mktime d (Some "before:2023-06-02") = Ok r /\
             total_scanned r = 1).
Proof.
  split; (eexists; split; [reflexivity|]; run_model).
Qed.

(** * Further properties *)

(** ** Cache store *)

(** What [save_cache] writes is what the next [load_cache] returns,
    whatever the file held before. *)
Lemma save_then_load (cache : Cache) (d : Disk) :
  load_cache (save_cache cache d) = Ok cache.
Proof. done. Qed.

Lemma persisted_clear (d : Disk) : persisted (clear_local_cache d) = ∅.
Proof. by destruct d as [[| |m] n]. Qed.

(** X1.  After [clear_local_cache] the cache loads as the empty mapping
    and every stats query, whatever its filters, answers with no sender,
    a total of zero and no oldest date; clearing twice is clearing once,
    and clearing is not a save. *)
Theorem clear_then_stats (mktime : LocalTime) (d : Disk) (query : option string) :
  load_cache (clear_local_cache d) = Ok ∅ /\
  fetch_email_stats mktime (clear_local_cache d) query
  = Ok {| stats := []; total_scanned := 0; oldest_date := None |} /\
  clear_local_cache (clear_local_cache d) = clear_local_cache d /\
  saves (clear_local_cache d) = saves d.
Proof.
  split; [by rewrite load_cache_persisted, persisted_clear|].
  split.
  - unfold fetch_email_stats.
    rewrite load_cache_persisted, persisted_clear.
    by rewrite bool_decide_eq_true_2.
  - by destruct d as [[| |m] n].
Qed.

(** ** Deletion coordinator *)

Lemma trashed_length (service : TrashService) (message_ids : list string) :
  length (trashed service message_ids) <= length message_ids.
Proof.
  destruct (trash_batches_partition message_ids) as [Hcat _].
  rewrite <- Hcat at 2. unfold trashed.
  generalize (trash_batches message_ids). intros l.
  induction l as [|b l IH]; [done|].
  rewrite !fmap_cons. cbn [concat]. rewrite !length_app.
  destruct (is_ok (service b.1 b.2)); cbn [length]; lia.
Qed.

Lemma trashed_all_ok (service : TrashService) (message_ids : list string) :
  (forall i b, is_ok (service i b) = true) ->
  trashed service message_ids = message_ids.
Proof.
  intros Hok. destruct (trash_batches_partition message_ids) as [Hcat _].
  rewrite <- Hcat at 2. unfold trashed. f_equal.
  apply list_fmap_ext. intros _ b _. by rewrite Hok.
Qed.

Lemma delete_messages_result (service : TrashService) (d : Disk)
    (message_ids : list string) :
  exists d', delete_messages service d message_ids
             = Ok (length (trashed service message_ids), d') /\
    persisted d' = remove_ids (trashed service message_ids) (persisted d).
Proof.
  unfold delete_messages. rewrite trash_loop_trashed.
  assert (message_ids = [] -> trashed service message_ids = []) as Hnil
    by (by intros ->).
  destruct message_ids as [|m l].
  { rewrite Hnil by done. by exists d. }
  destruct (trashed service (m :: l)) as [|c cl].
  { by exists d. }
  rewrite load_cache_persisted. eexists. split; [done|].
  by rewrite persisted_save.
Qed.

(** X2.  [delete_messages] never reports more trashed messages than ids
    it was given, and it reports none when it is given none. *)
Theorem delete_count_bounded (service : TrashService) (d : Disk)
    (message_ids : list string) :
  exists n d', delete_messages service d message_ids = Ok (n, d') /\
    n <= length message_ids /\
    (message_ids = [] -> n = 0 /\ d' = d).
Proof.
  destruct (delete_messages_result service d message_ids) as (d' & Hd & _).
  exists (length (trashed service message_ids)), d'.
  split; [done|]. split; [apply trashed_length|].
  intros ->. unfold delete_messages in Hd. simpl in Hd. by simplify_eq.
Qed.

(** X3.  When every remote call succeeds, [delete_messages] reports the
    number of ids it was given and none of these ids is a key of the
    cache afterwards. *)
Theorem delete_all_succeed (service : TrashService) (d : Disk)
    (message_ids : list string) :
  (forall i b, is_ok (service i b) = true) ->
  exists d', delete_messages service d message_ids = Ok (length message_ids, d') /\
    forall id, id ∈ message_ids -> persisted d' !! id = None.
Proof.
  intros Hok.
  destruct (delete_messages_result service d message_ids) as (d' & Hd & Hp).
  rewrite (trashed_all_ok _ _ Hok) in Hd, Hp. exists d'. split; [done|].
  intros id Hid. rewrite Hp, remove_ids_lookup. by rewrite bool_decide_eq_true_2.
Qed.

Lemma delete_all_succeed_witness :
  exists d', delete_messages (fun _ _ => Ok tt)
               {| content := Stored {[ "a" := Sample.record_of "x@example.com" 1 ]};
                  saves := 0 |} ["a"; "b"] = Ok (2, d') /\
    forall id, id ∈ ["a"; "b"] -> persisted d' !! id = None.
Proof.
  apply (delete_all_succeed (fun _ _ => Ok tt)
           {| content := Stored {[ "a" := Sample.record_of "x@example.com" 1 ]};
              saves := 0 |} ["a"; "b"]).
  intros i b. reflexivity.
Defined.

(** X4.  Deleting the same ids a second time, with every remote call
    succeeding both times, leaves the persisted cache as the first
    deletion left it. *)
Theorem delete_twice (service : TrashService) (d : Disk)
    (message_ids : list string) :
  (forall i b, is_ok (service i b) = true) ->
  exists d1 d2,
    delete_messages service d message_ids = Ok (length message_ids, d1) /\
    delete_messages service d1 message_ids = Ok (length message_ids, d2) /\
    persisted d2 = persisted d1.
Proof.
  intros Hok.
  destruct (delete_messages_result service d message_ids) as (d1 & Hd1 & Hp1).
  destruct (delete_messages_result service d1 message_ids) as (d2 & Hd2 & Hp2).
  rewrite (trashed_all_ok _ _ Hok) in Hd1, Hp1, Hd2, Hp2.
  exists d1, d2. split; [done|]. split; [done|].
  apply map_eq. intros k. rewrite Hp2, Hp1, !remove_ids_lookup.
  by case_bool_decide.
Qed.

Lemma delete_twice_witness :
  exists d1 d2,
    delete_messages (fun _ _ => Ok tt) Sample.cached_disk ["m0"] = Ok (1, d1) /\
    delete_messages (fun _ _ => Ok tt) d1 ["m0"] = Ok (1, d2) /\
    persisted d2 = persisted d1.
Proof.
  apply (delete_twice (fun _ _ => Ok tt) Sample.cached_disk ["m0"]).
  intros i b. reflexivity.
Defined.

(** ** Sync engine *)

Section RunMore.
Variable env : Env.

Lemma list_messages_total pgs s messages n :
  total_to_scan (sync s) = n -> n = length messages ->
  match list_messages env pgs s messages n with
  | Done s' messages' => total_to_scan (sync s') = length messages'
  | Failed _ _ => True
  end.
Proof.
  revert s messages n.
  induction pgs as [|[msg|batch_msgs] rest IH]; intros s messages n Ht Hn; simpl;
    destruct (is_set env s); try done; try (simpl; congruence).
  destruct (_ || _).
  - simpl. rewrite length_app. lia.
  - apply IH; [done|]. rewrite length_app. lia.
Qed.

Lemma prepare_total s0 s messages :
  prepare env s0 = Ready s messages -> total_to_scan (sync s) = length messages.
Proof.
  unfold prepare. destruct (build_service env); [|done].
  pose proof (list_messages_total (pages env)
    (with_sync (set_status ListingMessages) (with_sync start_state s0)) [] 0
    eq_refl eq_refl) as H.
  destruct (list_messages _ _ _ _ _) as [s1 m|s1 m]; [|done].
  destruct (is_set env s1); [done|]. by intros [= <- <-].
Qed.

(** What the batch loop leaves alone in the progress state. *)
Lemma fetch_batch_total missing i s ni :
  total_to_scan (sync (fetch_batch env missing i s ni).1) = total_to_scan (sync s).
Proof.
  unfold fetch_batch. destruct (execute_batch env i _); [done|].
  by case_bool_decide.
Qed.

Lemma fetch_loop_total missing starts s ni :
  total_to_scan (sync (fetch_loop env missing starts s ni).1)
  = total_to_scan (sync s).
Proof.
  revert s ni. induction starts as [|i rest IH]; intros s ni; simpl; [done|].
  destruct (is_set env s); [done|].
  destruct (fetch_batch env missing i (tick s) ni) as [s' ni'] eqn:E.
  rewrite IH. replace s' with (fetch_batch env missing i (tick s) ni).1
    by (by rewrite E).
  by rewrite fetch_batch_total.
Qed.

Lemma run_total s0 s messages :
  prepare env s0 = Ready s messages ->
  total_to_scan (sync (run env s0)) = length messages.
Proof.
  intros Hp. pose proof (prepare_total s0 s messages Hp) as Ht.
  unfold run. rewrite Hp. simpl.
  destruct (missing_ids (output_cache s) messages) as [|id l]; [done|].
  unfold fetch_details.
  pose proof (fetch_loop_total (id :: l) (batch_starts (id :: l))
                (diffed s messages) ∅) as H.
  destruct (fetch_loop _ _ _ _ _) as [s' ni]. simpl in *. congruence.
Qed.

Lemma fetch_batch_errors missing i s ni :
  length (errors (sync (fetch_batch env missing i s ni).1))
  = length (errors (sync s)) + (if batch_ok env missing i then 0 else 1).
Proof.
  unfold fetch_batch, batch_ok, chunk_at.
  destruct (execute_batch env i _); simpl.
  - by rewrite length_app.
  - case_bool_decide; simpl; lia.
Qed.

Lemma failed_count_app l1 l2 :
  failed_count (l1 ++ l2) = failed_count l1 + failed_count l2.
Proof. unfold failed_count. by rewrite filter_app, length_app. Qed.

Lemma failed_count_entry missing i :
  failed_count [log_entry env missing i]
  = if batch_ok env missing i then 0 else 1.
Proof. unfold failed_count, log_entry. by destruct (batch_ok env missing i). Qed.

Lemma fetch_loop_errors missing starts s ni :
  length (errors (sync s)) = failed_count (fetch_log s) ->
  length (errors (sync (fetch_loop env missing starts s ni).1))
  = failed_count (fetch_log (fetch_loop env missing starts s ni).1).
Proof.
  revert s ni. induction starts as [|i rest IH]; intros s ni Hs; simpl; [done|].
  destruct (is_set env s); [done|].
  destruct (fetch_batch env missing i (tick s) ni) as [s' ni'] eqn:E.
  apply IH. replace s' with (fetch_batch env missing i (tick s) ni).1
    by (by rewrite E).
  rewrite fetch_batch_errors, fetch_batch_log, failed_count_app,
    failed_count_entry. simpl. by rewrite Hs.
Qed.

Lemma prepare_errors s0 :
  match prepare env s0 with
  | Aborted s | Ready s _ => errors (sync s) = []
  end.
Proof.
  unfold prepare. destruct (build_service env); [|done].
  assert (forall pgs s messages n,
            errors (sync s) = [] ->
            match list_messages env pgs s messages n with
            | Done s' _ | Failed s' _ => errors (sync s') = []
            end) as H.
  { induction pgs as [|[msg|batch_msgs] rest IH]; intros s messages n Hs; simpl;
      destruct (is_set env s); try done.
    destruct (_ || _); [done|]. by apply IH. }
  specialize (H (pages env)
    (with_sync (set_status ListingMessages) (with_sync start_state s0)) [] 0
    eq_refl).
  destruct (list_messages _ _ _ _ _) as [s m|s m]; [|done].
  by destruct (is_set env s).
Qed.

Lemma run_errors s0 :
  fetch_log s0 = [] ->
  length (errors (sync (run env s0))) = failed_count (fetch_log (run env s0)).
Proof.
  intros Hlog. unfold run.
  pose proof (prepare_untouched env s0) as H.
  pose proof (prepare_errors s0) as He.
  destruct (prepare env s0) as [s|s messages];
    destruct H as (Hc & Hl & Hd & Hn); simpl.
  - by rewrite He, Hl, Hlog.
  - destruct (missing_ids (output_cache s) messages) as [|id l] eqn:Hm.
    { simpl. by rewrite He, Hl, Hlog. }
    unfold fetch_details.
    pose proof (fetch_loop_errors (id :: l) (batch_starts (id :: l))
                  (diffed s messages) ∅) as H.
    destruct (fetch_loop _ _ _ _ _). simpl in *. apply H.
    by rewrite He, Hl, Hlog.
Qed.
End RunMore.

Lemma init_fields (mr : Z) (d : Disk) (s0 : Syncer) :
  init mr d = Ok s0 ->
  output_cache s0 = persisted d /\ disk s0 = d /\ fetch_log s0 = [].
Proof.
  unfold init. rewrite load_cache_persisted. by intros [= <-].
Qed.

(** X5.  However a run ends, it clears [is_running], and its final status
    is one of Complete, Stopped by user and Error. *)
Theorem run_ends_not_running (env : Env) (s0 : Syncer) :
  is_running (sync (run env s0)) = false /\
  (status (sync (run env s0)) = Complete \/
   status (sync (run env s0)) = StoppedByUser \/
   exists msg, status (sync (run env s0)) = Error msg).
Proof.
  split; [done|]. unfold run, prepare.
  destruct (build_service env); [|right; right; by eexists].
  destruct (list_messages _ _ _ _ _) as [s m|s m];
    [|right; right; by eexists].
  destruct (is_set env s); [right; by left|by left].
Qed.

(** X6.  A run that does not end with the status Complete (it was stopped
    during listing, or building the client or listing raised) has written
    nothing: the disk and the in-memory cache are as they were and no
    detail request was sent. *)
Theorem run_aborted_writes_nothing (env : Env) (s0 : Syncer) :
  status (sync (run env s0)) = Complete \/
  (disk (run env s0) = disk s0 /\
   output_cache (run env s0) = output_cache s0 /\
   fetch_log (run env s0) = fetch_log s0 /\
   scanned_count (sync (run env s0)) = 0).
Proof.
  pose proof (prepare_untouched env s0) as H. unfold run.
  destruct (prepare env s0) as [s|s messages]; [|by left].
  right. by destruct H as (? & ? & ? & ?).
Qed.

(** X7.  When the listing phase is completed, [total_to_scan] is, at the
    end of the run, the number of message ids that were listed. *)
Theorem total_to_scan_is_listed (env : Env) (s0 s : Syncer)
    (messages : list string) :
  prepare env s0 = Ready s messages ->
  total_to_scan (sync (run env s0)) = length messages.
Proof. apply run_total. Qed.

Lemma total_to_scan_is_listed_witness :
  total_to_scan (sync (run (Sample.env_of 7 Sample.all_ok None) Sample.fresh))
  = length (Sample.mailbox 7).
Proof.
  refine (total_to_scan_is_listed (Sample.env_of 7 Sample.all_ok None)
            Sample.fresh _ (Sample.mailbox 7) _).
  reflexivity.
Defined.

(** X8.  At the end of a run the [errors] list has one entry for each
    batch whose [execute()] raised, and no other entry: a listing failure
    goes to [status], not to [errors]. *)
Theorem errors_count_failed_batches (env : Env) (mr : Z) (d : Disk)
    (s0 : Syncer) :
  init mr d = Ok s0 ->
  length (errors (sync (run env s0))) = failed_count (fetch_log (run env s0)).
Proof.
  intros Hinit. apply run_errors. by apply init_fields in Hinit as (_ & _ & ?).
Qed.

Lemma errors_count_failed_batches_witness :
  let s := run (Sample.env_of 250 (Sample.fails_at 100) None) Sample.fresh in
  length (errors (sync s)) = failed_count (fetch_log s).
Proof.
  exact (errors_count_failed_batches
           (Sample.env_of 250 (Sample.fails_at 100) None)
           50000%Z Sample.empty_disk Sample.fresh eq_refl).
Defined.

(** X9.  A run that finds every listed id in its cache completes without
    sending a detail request and without writing the cache file. *)
Theorem run_nothing_missing (env : Env) (s0 s : Syncer) (messages : list string) :
  prepare env s0 = Ready s messages ->
  missing_ids (output_cache s0) messages = [] ->
  status (sync (run env s0)) = Complete /\
  disk (run env s0) = disk s0 /\
  output_cache (run env s0) = output_cache s0 /\
  fetch_log (run env s0) = fetch_log s0 /\
  scanned_count (sync (run env s0)) = 0.
Proof.
  intros Hp Hm. pose proof (prepare_untouched env s0) as H.
  unfold run. rewrite Hp in *. destruct H as (Hc & Hl & Hd & Hn).
  rewrite Hc, Hm. by simpl.
Qed.

Lemma run_nothing_missing_witness :
  let env := Sample.env_of 2 Sample.all_ok None in
  status (sync (run env Sample.warm)) = Complete /\
  disk (run env Sample.warm) = disk Sample.warm /\
  output_cache (run env Sample.warm) = output_cache Sample.warm /\
  fetch_log (run env Sample.warm) = fetch_log Sample.warm /\
  scanned_count (sync (run env Sample.warm)) = 0.
Proof.
  intros env.
  refine (run_nothing_missing env Sample.warm _ (Sample.mailbox 2) _ _).
  - reflexivity.
  - apply (bool_decide_unpack _). vm_compute. exact I.
Defined.

(** *** What a run does to the cache *)

Lemma answered_cons r rs :
  answered (r :: rs)
  = match r with
    | DetailOk response => [resp_id response]
    | DetailError => []
    end ++ answered rs.
Proof. done. Qed.

(** The keys of the buffer after the callbacks of one batch. *)
Lemma callback_keys (rs : list DetailResult) (new_items : Cache) (k : string) :
  is_Some (foldl batch_callback new_items rs !! k)
  <-> is_Some (new_items !! k) \/ k ∈ answered rs.
Proof.
  revert new_items. induction rs as [|r rs IH]; intros new_items.
  - simpl. split; [by left|]. intros [?|Hk]; [done|].
    by apply not_elem_of_nil in Hk.
  - cbn [foldl]. rewrite IH, answered_cons, elem_of_app.
    destruct r as [|response]; cbn [batch_callback].
    + split; [tauto|]. intros [?|[Hk|?]]; [tauto| |tauto].
      by apply not_elem_of_nil in Hk.
    + rewrite list_elem_of_singleton.
      destruct (decide (k = resp_id response)) as [->|Hne].
      * rewrite lookup_insert_eq. split; [intros _; right; by left|].
        intros _. left. by eexists.
      * rewrite lookup_insert_ne by done. tauto.
Qed.

Lemma chunk_at_subset (missing : list string) (i : nat) (id : string) :
  id ∈ chunk_at missing i -> id ∈ missing.
Proof.
  unfold chunk_at. intros Hid.
  eapply elem_of_sublist in Hid; [|apply sublist_take].
  by eapply elem_of_sublist in Hid; [|apply sublist_drop].
Qed.

Lemma missing_ids_spec (cache : Cache) (messages : list string) (id : string) :
  id ∈ missing_ids cache messages <-> cache !! id = None /\ id ∈ messages.
Proof. unfold missing_ids. by rewrite list_elem_of_filter. Qed.

Lemma merge_keeps (c0 new_items cache : Cache) :
  c0 ⊆ cache ->
  (forall k, is_Some (new_items !! k) -> c0 !! k = None) ->
  c0 ⊆ new_items ∪ cache.
Proof.
  rewrite !map_subseteq_spec. intros Hsub Hnew k v Hk.
  destruct (new_items !! k) as [w|] eqn:E.
  - rewrite Hnew in Hk by (by eexists). done.
  - rewrite lookup_union_r by done. by apply Hsub.
Qed.

Section WriteOnce.
Variable env : Env.
Variable c0 : Cache.
Variable missing : list string.
Hypothesis env_faithful : faithful env.
Hypothesis missing_fresh : forall id, id ∈ missing -> c0 !! id = None.

Lemma fetch_batch_keeps_old i s ni :
  keeps_old c0 s ni ->
  keeps_old c0 (fetch_batch env missing i s ni).1 (fetch_batch env missing i s ni).2.
Proof.
  intros (Hc & Hd & Hn). unfold fetch_batch. fold (chunk_at missing i).
  destruct (execute_batch env i (chunk_at missing i)) as [msg|rs] eqn:E; [done|].
  assert (forall k, is_Some (foldl batch_callback ni rs !! k) -> c0 !! k = None)
    as Hn'.
  { intros k [Hk|Hk]%callback_keys; [by apply Hn|].
    apply missing_fresh, (chunk_at_subset _ i), (env_faithful _ _ _ E), Hk. }
  case_bool_decide; simpl; [|done].
  assert (c0 ⊆ foldl batch_callback ni rs ∪ output_cache s) as Hm
    by by apply merge_keeps.
  split; [done|]. split; [done|]. intros k Hk.
  rewrite lookup_empty in Hk. by destruct Hk.
Qed.

Lemma fetch_loop_keeps_old starts s ni :
  keeps_old c0 s ni ->
  keeps_old c0 (fetch_loop env missing starts s ni).1
               (fetch_loop env missing starts s ni).2.
Proof.
  revert s ni. induction starts as [|i rest IH]; intros s ni Hs; simpl; [done|].
  destruct (is_set env s); [done|].
  pose proof (fetch_batch_keeps_old i (tick s) ni Hs) as H.
  destruct (fetch_batch env missing i (tick s) ni) as [s' ni']. by apply IH.
Qed.
End WriteOnce.

Lemma run_keeps_old (env : Env) (s0 : Syncer) :
  faithful env ->
  output_cache s0 ⊆ persisted (disk s0) ->
  output_cache s0 ⊆ output_cache (run env s0) /\
  output_cache s0 ⊆ persisted (disk (run env s0)) /\
  forall M s, killed_after env s0 M = Some s ->
              output_cache s0 ⊆ persisted (disk s).
Proof.
  intros Hf Hd0. pose proof (prepare_untouched env s0) as H.
  unfold run, killed_after.
  destruct (prepare env s0) as [s|s messages];
    destruct H as (Hc & Hl & Hd & Hn).
  { simpl. rewrite Hc, Hd. done. }
  assert (keeps_old (output_cache s0) (diffed s messages) ∅) as Hk.
  { split; [by rewrite <- Hc|]. split; [simpl; by rewrite Hd|].
    intros k Hk. rewrite lookup_empty in Hk. by destruct Hk. }
  assert (forall id, id ∈ missing_ids (output_cache s) messages ->
                     output_cache s0 !! id = None) as Hfresh.
  { intros id Hid. apply missing_ids_spec in Hid as [? _]. by rewrite <- Hc. }
  split; [|split].
  - destruct (missing_ids (output_cache s) messages) as [|id l] eqn:Hm.
    { simpl. by rewrite Hc. }
    unfold fetch_details.
    pose proof (fetch_loop_keeps_old env (output_cache s0) (id :: l) Hf Hfresh
                  (batch_starts (id :: l)) _ _ Hk) as (H1 & H2 & H3).
    destruct (fetch_loop _ _ _ _ _) as [s' ni]. simpl in *.
    by apply merge_keeps.
  - destruct (missing_ids (output_cache s) messages) as [|id l] eqn:Hm.
    { simpl. by rewrite Hd. }
    unfold fetch_details.
    pose proof (fetch_loop_keeps_old env (output_cache s0) (id :: l) Hf Hfresh
                  (batch_starts (id :: l)) _ _ Hk) as (H1 & H2 & H3).
    destruct (fetch_loop _ _ _ _ _) as [s' ni]. simpl in *.
    by apply merge_keeps.
  - intros M s' [= <-].
    by pose proof (fetch_loop_keeps_old env (output_cache s0) _ Hf Hfresh
                  (take M (batch_starts (missing_ids (output_cache s) messages)))
                  _ _ Hk) as (H1 & H2 & H3).
Qed.

Lemma all_ok_answered (chunk : list string) :
  answered ((fun id => DetailOk (Sample.response_for id)) <$> chunk) = chunk.
Proof.
  induction chunk as [|id l IH]; [done|].
  rewrite fmap_cons, answered_cons. simpl. by rewrite IH.
Qed.

Lemma all_ok_faithful (n : nat) (stop : option nat) :
  faithful (Sample.env_of n Sample.all_ok stop).
Proof.
  intros i chunk rs. simpl. unfold Sample.all_ok. intros [= <-] id.
  by rewrite all_ok_answered.
Qed.

Lemma all_ok_answers_all (n : nat) (stop : option nat) :
  answers_all (Sample.env_of n Sample.all_ok stop).
Proof.
  intros i chunk. eexists. split; [done|]. apply all_ok_answered.
Qed.

(** X10.  Against a remote that answers each request with the message
    that was asked for, a sync run never drops or changes a record that
    the cache file held when the syncer was created: every such record is
    in the in-memory cache and in the file at the end of the run, and in
    the file at any point at which the process may be killed. *)
Theorem sync_keeps_cached_records (env : Env) (mr : Z) (d : Disk) (s0 : Syncer) :
  init mr d = Ok s0 ->
  faithful env ->
  persisted d ⊆ output_cache (run env s0) /\
  persisted d ⊆ persisted (disk (run env s0)) /\
  forall M s, killed_after env s0 M = Some s -> persisted d ⊆ persisted (disk s).
Proof.
  intros (Hc & Hd & _)%init_fields Hf. rewrite <- Hc.
  apply run_keeps_old; [done|]. by rewrite Hc, Hd.
Qed.

Lemma sync_keeps_cached_records_witness :
  let env := Sample.env_of 3 Sample.all_ok None in
  Sample.two_cached ⊆ output_cache (run env Sample.warm) /\
  Sample.two_cached ⊆ persisted (disk (run env Sample.warm)) /\
  forall M s, killed_after env Sample.warm M = Some s ->
              Sample.two_cached ⊆ persisted (disk s).
Proof.
  exact (sync_keeps_cached_records (Sample.env_of 3 Sample.all_ok None)
           50000%Z Sample.cached_disk Sample.warm eq_refl
           (all_ok_faithful 3 None)).
Defined.

Lemma attempted_snoc (s s' : Syncer) (chunk : list string) (ok : bool) :
  fetch_log s' = fetch_log s ++ [(chunk, ok)] ->
  attempted s' = attempted s ++ chunk.
Proof.
  unfold attempted. intros ->. rewrite fmap_app, concat_app. simpl.
  by rewrite app_nil_r.
Qed.

Section Complete.
Variable env : Env.
Variable c0 : Cache.
Variable missing : list string.
Hypothesis env_answers : answers_all env.

Lemma fetch_batch_covers i s ni :
  covers c0 s ni ->
  covers c0 (fetch_batch env missing i s ni).1 (fetch_batch env missing i s ni).2.
Proof.
  intros Hcov k Hk.
  assert (is_Some (c0 !! k) \/ k ∈ attempted s \/ k ∈ chunk_at missing i) as Hk'.
  { destruct Hk as [?|Hk]; [by left|right].
    rewrite (attempted_snoc s _ _ _ (fetch_batch_log env missing i s ni)) in Hk.
    by apply elem_of_app in Hk. }
  clear Hk. unfold fetch_batch. fold (chunk_at missing i).
  destruct (env_answers i (chunk_at missing i)) as (rs & -> & Hrs).
  assert (is_Some ((foldl batch_callback ni rs ∪ output_cache s) !! k)) as Hm.
  { apply lookup_union_is_Some. destruct Hk' as [Hk|[Hk|Hk]].
    - destruct (Hcov k (or_introl Hk)) as [v Hv].
      apply lookup_union_Some_raw in Hv as [Hv|[_ Hv]].
      + left. apply callback_keys. left. by eexists.
      + right. by eexists.
    - destruct (Hcov k (or_intror Hk)) as [v Hv].
      apply lookup_union_Some_raw in Hv as [Hv|[_ Hv]].
      + left. apply callback_keys. left. by eexists.
      + right. by eexists.
    - left. apply callback_keys. right. by rewrite Hrs. }
  case_bool_decide; simpl; [|done].
  by rewrite (left_id_L ∅ (∪)).
Qed.

Lemma fetch_loop_covers starts s ni :
  covers c0 s ni ->
  covers c0 (fetch_loop env missing starts s ni).1
            (fetch_loop env missing starts s ni).2.
Proof.
  revert s ni. induction starts as [|i rest IH]; intros s ni Hs; simpl; [done|].
  destruct (is_set env s); [done|].
  pose proof (fetch_batch_covers i (tick s) ni Hs) as H.
  destruct (fetch_batch env missing i (tick s) ni) as [s' ni']. by apply IH.
Qed.
End Complete.

(** The shape of a run that enters the batch phase. *)
Lemma run_batch_phase (env : Env) (s0 s : Syncer) (messages : list string) :
  prepare env s0 = Ready s messages ->
  missing_ids (output_cache s0) messages <> [] ->
  exists s' ni,
    fetch_loop env (missing_ids (output_cache s0) messages)
      (batch_starts (missing_ids (output_cache s0) messages))
      (diffed s messages) ∅ = (s', ni) /\
    output_cache (run env s0) = ni ∪ output_cache s' /\
    persisted (disk (run env s0)) = ni ∪ output_cache s' /\
    fetch_log (run env s0) = fetch_log s'.
Proof.
  intros Hp Hm. pose proof (prepare_untouched env s0) as H.
  unfold run. rewrite Hp in *. destruct H as (Hc & _). rewrite Hc.
  destruct (missing_ids (output_cache s0) messages) as [|id l]; [done|].
  unfold fetch_details.
  destruct (fetch_loop _ _ _ _ _) as [s' ni]. by exists s', ni.
Qed.

Lemma run_caches_listed (env : Env) (s0 s : Syncer) (messages : list string) :
  fetch_log s0 = [] ->
  output_cache s0 = persisted (disk s0) ->
  prepare env s0 = Ready s messages ->
  answers_all env ->
  is_set env (run env s0) = false ->
  forall id, id ∈ messages -> is_Some (persisted (disk (run env s0)) !! id).
Proof.
  intros Hlog Hd0 Hp Ha Hstop id Hid.
  pose proof (prepare_untouched env s0) as Hu. rewrite Hp in Hu.
  destruct Hu as (Hc & Hl & Hd & _).
  destruct (decide (missing_ids (output_cache s0) messages = [])) as [Hm|Hm].
  { assert (disk (run env s0) = disk s0) as ->.
    { unfold run. rewrite Hp, Hc, Hm. by simpl. }
    rewrite <- Hd0. destruct (output_cache s0 !! id) eqn:E; [by eexists|].
    assert (id ∈ missing_ids (output_cache s0) messages) as Hin
      by by apply missing_ids_spec.
    rewrite Hm in Hin. by apply not_elem_of_nil in Hin. }
  pose proof (run_attempted_full env s0 s messages Hlog Hp Hstop) as Hfull.
  destruct (run_batch_phase env s0 s messages Hp Hm)
    as (s' & ni & Hloop & Hout & Hper & Hlog').
  rewrite Hper.
  assert (covers (output_cache s0) (diffed s messages) ∅) as Hcov0.
  { intros k [Hk|Hk].
    - rewrite (left_id_L ∅ (∪)). simpl. by rewrite Hc.
    - unfold attempted in Hk. simpl in Hk. rewrite Hl, Hlog in Hk.
      by apply not_elem_of_nil in Hk. }
  pose proof (fetch_loop_covers env (output_cache s0)
                (missing_ids (output_cache s0) messages) Ha
                (batch_starts (missing_ids (output_cache s0) messages))
                _ _ Hcov0) as Hcov.
  rewrite Hloop in Hcov. simpl in Hcov. apply Hcov.
  destruct (output_cache s0 !! id) eqn:E; [left; by eexists|right].
  unfold attempted. rewrite <- Hlog', Hfull.
  assert (concat (chunk_at (missing_ids (output_cache s0) messages)
                    <$> batch_starts (missing_ids (output_cache s0) messages))
          = missing_ids (output_cache s0) messages) as ->
    by (apply (concat_chunks BATCH_SIZE); unfold BATCH_SIZE; lia).
  by apply missing_ids_spec.
Qed.

(** X11.  When no stop signal is observed and the remote answers every
    request of every batch, every listed message id is a key of the
    persisted cache at the end of the run. *)
Theorem complete_run_caches_listed (env : Env) (mr : Z) (d : Disk)
    (s0 s : Syncer) (messages : list string) :
  init mr d = Ok s0 ->
  prepare env s0 = Ready s messages ->
  answers_all env ->
  is_set env (run env s0) = false ->
  forall id, id ∈ messages -> is_Some (persisted (disk (run env s0)) !! id).
Proof.
  intros (Hc & Hd & Hl)%init_fields. apply run_caches_listed; [done|].
  by rewrite Hc, Hd.
Qed.

Lemma complete_run_caches_listed_witness :
  is_Some (persisted (disk (run (Sample.env_of 3 Sample.all_ok None)
                              Sample.fresh)) !! Sample.id_of 1).
Proof.
  refine (complete_run_caches_listed (Sample.env_of 3 Sample.all_ok None)
            50000%Z Sample.empty_disk Sample.fresh _ (Sample.mailbox 3)
            _ _ _ _ (Sample.id_of 1) _).
  - reflexivity.
  - reflexivity.
  - apply all_ok_answers_all.
  - reflexivity.
  - apply (bool_decide_unpack _). vm_compute. exact I.
Defined.

(** X12.  Idempotence of sync.  After such a complete run, a second
    syncer created over the resulting cache file and listing no id that
    the first run did not list sends no detail request, does not write
    the cache file, and completes. *)
Theorem second_run_fetches_nothing (env env' : Env) (mr mr' : Z) (d : Disk)
    (s0 s s1 s1' : Syncer) (messages messages' : list string) :
  init mr d = Ok s0 ->
  prepare env s0 = Ready s messages ->
  answers_all env ->
  is_set env (run env s0) = false ->
  init mr' (disk (run env s0)) = Ok s1 ->
  prepare env' s1 = Ready s1' messages' ->
  messages' ⊆ messages ->
  fetch_log (run env' s1) = [] /\
  disk (run env' s1) = disk (run env s0) /\
  status (sync (run env' s1)) = Complete.
Proof.
  intros (Hc & Hd & Hl)%init_fields Hp Ha Hstop
         (Hc1 & Hd1 & Hl1)%init_fields Hp1 Hsub.
  assert (missing_ids (output_cache s1) messages' = []) as Hm.
  { destruct (missing_ids (output_cache s1) messages') as [|id l] eqn:E; [done|].
    assert (id ∈ missing_ids (output_cache s1) messages') as Hin
      by (rewrite E; left).
    apply missing_ids_spec in Hin as [Hnone Hin]. rewrite Hc1 in Hnone.
    assert (is_Some (persisted (disk (run env s0)) !! id)) as [v Hv].
    { eapply run_caches_listed; try done; [by rewrite Hc, Hd|by apply Hsub]. }
    congruence. }
  pose proof (prepare_untouched env' s1) as Hu. rewrite Hp1 in Hu.
  destruct Hu as (Hc' & Hl' & Hd' & _).
  unfold run. rewrite Hp1, Hc', Hm. simpl. by rewrite Hl', Hl1, Hd', Hd1.
Qed.

Lemma second_run_fetches_nothing_witness :
  let env := Sample.env_of 3 Sample.all_ok None in
  let d1 := disk (run env Sample.fresh) in
  exists s1, init 50000%Z d1 = Ok s1 /\
    fetch_log (run env s1) = [] /\
    disk (run env s1) = d1 /\
    status (sync (run env s1)) = Complete.
Proof.
  intros env d1. eexists. split; [reflexivity|].
  refine (second_run_fetches_nothing env env 50000%Z 50000%Z Sample.empty_disk
            Sample.fresh _ _ _ (Sample.mailbox 3) (Sample.mailbox 3)
            _ _ _ _ _ _ _).
  - reflexivity.
  - reflexivity.
  - apply all_ok_answers_all.
  - reflexivity.
  - reflexivity.
  - reflexivity.
  - done.
Defined.

(** ** Stats aggregator: dates, names and ids *)

Section LoopDates.
Variable before_ts : option Z.
Variable target_category : option string.

Local Abbreviation keep := (survives before_ts target_category).
Local Abbreviation step := (aggregate_step before_ts target_category).
Local Abbreviation alive := (survivors before_ts target_category).

Lemma elem_of_survivors items it :
  it ∈ alive items <-> keep it.2 = true /\ it ∈ items.
Proof. unfold survivors. by rewrite list_elem_of_filter. Qed.

Lemma survivors_snoc items mid data :
  alive (items ++ [(mid, data)])
  = alive items ++ (if keep data then [(mid, data)] else []).
Proof.
  unfold survivors. rewrite filter_app. f_equal.
  rewrite filter_cons, filter_nil. simpl.
  destruct (keep data); [by rewrite decide_True|by rewrite decide_False].
Qed.

Lemma aggregate_step_oldest a mid data :
  keep data = true ->
  agg_oldest (step a (mid, data))
  = match agg_oldest a with
    | None => Some (record_ts data)
    | Some o => if bool_decide (record_ts data < o)%Z
                then Some (record_ts data) else Some o
    end.
Proof.
  unfold survives, aggregate_step.
  destruct (date_excludes before_ts data); [done|].
  by destruct (category_excludes target_category data).
Qed.

Lemma no_survivor_of_new_sender items a e it :
  loop_inv before_ts target_category items a ->
  e ∉ stat_email <$> agg_stats a ->
  it ∈ alive items -> sender it.2 <> e.
Proof.
  intros [_ _ _ _ Hp] He Hit Hs. apply He, Hp.
  apply elem_of_survivors in Hit as [Hk Hin].
  assert (it.1 ∈ kept_of before_ts target_category e items) as Hm.
  { unfold kept_of. apply list_elem_of_fmap. exists it. split; [done|].
    by apply list_elem_of_filter. }
  intros Hnil. rewrite Hnil in Hm. by apply not_elem_of_nil in Hm.
Qed.

Lemma loop_inv_dates_step items a mid data :
  loop_inv before_ts target_category items a ->
  loop_inv_dates before_ts target_category items a ->
  loop_inv_dates before_ts target_category (items ++ [(mid, data)])
    (step a (mid, data)).
Proof.
  intros Hinv [Ho Hl]. destruct (keep data) eqn:Hk.
  2:{ rewrite aggregate_step_drop by done.
      constructor; rewrite survivors_snoc, Hk, app_nil_r; done. }
  assert ((mid, data) ∈ alive (items ++ [(mid, data)])) as Hnew.
  { rewrite survivors_snoc, Hk. apply elem_of_app. right. left. }
  assert (forall it, it ∈ alive (items ++ [(mid, data)]) ->
                     it ∈ alive items \/ it = (mid, data)) as Hcases.
  { intros it. rewrite survivors_snoc, Hk, elem_of_app, list_elem_of_singleton.
    tauto. }
  assert (forall it, it ∈ alive items -> it ∈ alive (items ++ [(mid, data)]))
    as Hold.
  { intros it Hit. rewrite survivors_snoc. apply elem_of_app. by left. }
  constructor.
  - rewrite aggregate_step_oldest by done.
    destruct (agg_oldest a) as [o|].
    + destruct Ho as [(it0 & Hit0 & Hts0) Hmin]. case_bool_decide as Hlt.
      * split; [by exists (mid, data)|].
        intros it [Hit| ->]%Hcases; [|done]. specialize (Hmin it Hit). lia.
      * split; [exists it0; by auto|].
        intros it [Hit| ->]%Hcases; [by apply Hmin|]. simpl. lia.
    + split; [by exists (mid, data)|].
      intros it [Hit| ->]%Hcases; [|done]. rewrite Ho in Hit.
      by apply not_elem_of_nil in Hit.
  - destruct (aggregate_step_keep before_ts target_category a mid data Hk)
      as [_ ->].
    destruct Hinv as [? ? Hn ? ?] eqn:Einv.
    eapply touch_Forall; [done|exact Hn|exact Hl|..].
    + intros st (H0 & Hle & Hex & Hname) Hne. split; [done|]. split; [|split].
      * intros it [Hit| ->]%Hcases Hs; [by apply Hle|]. by destruct Hne.
      * destruct Hex as [?|(it & ? & ? & ?)]; [by left|right]. exists it. auto.
      * destruct Hname as (it & ? & ? & ?). exists it. auto.
    + intros st (H0 & Hle & Hex & Hname) He. simpl.
      split; [lia|]. split; [|split].
      * intros it [Hit| ->]%Hcases Hs; [|simpl; lia].
        specialize (Hle it Hit Hs). lia.
      * destruct (Z.max_spec (stat_last_date st) (record_ts data))
          as [[_ ->]|[_ ->]].
        { right. by exists (mid, data). }
        { destruct Hex as [?|(it & ? & ? & ?)]; [by left|right]. exists it. auto. }
      * by exists (mid, data).
    + intros Hnot. simpl. split; [lia|]. split; [|split].
      * intros it [Hit| ->]%Hcases Hs; [|simpl; lia].
        exfalso. by eapply (no_survivor_of_new_sender items a (sender data) it).
      * destruct (Z.max_spec 0 (record_ts data)) as [[_ ->]|[_ ->]].
        { right. by exists (mid, data). }
        { by left. }
      * by exists (mid, data).
Qed.

Lemma aggregate_loop_inv_dates items :
  loop_inv_dates before_ts target_category items
    (aggregate_loop before_ts target_category items).
Proof.
  induction items as [|[mid data] items IH] using rev_ind.
  - constructor; simpl; [done|constructor].
  - unfold aggregate_loop in *. rewrite foldl_app. simpl.
    apply loop_inv_dates_step; [|done]. apply aggregate_loop_inv.
Qed.
End LoopDates.

(** The result of [fetch_email_stats] in terms of the loop. *)
Lemma fetch_email_stats_result (mktime : LocalTime) (d : Disk)
    (query : option string) :
  let before_ts := (query_filters mktime query).1 in
  let target_category := (query_filters mktime query).2 in
  let items := map_to_list (persisted d) in
  let a := aggregate_loop before_ts target_category items in
  exists r, fetch_email_stats mktime d query = Ok r /\
    stats r ≡ₚ agg_stats a /\
    total_scanned r = agg_total a /\
    oldest_date r = agg_oldest a.
Proof.
  intros before_ts target_category items a.
  subst a items before_ts target_category.
  unfold fetch_email_stats. rewrite load_cache_persisted.
  case_bool_decide as Hempty.
  { eexists. split; [done|]. rewrite Hempty, map_to_list_empty. done. }
  destruct (query_filters mktime query) as [before_ts target_category].
  eexists. split; [done|]. simpl.
  split; [apply sorted_by_count_perm|]. split; [done|].
  case_bool_decide as Hpos; [done|].
  pose proof (aggregate_loop_inv before_ts target_category
                (map_to_list (persisted d))) as [Ht _ _ _ _].
  pose proof (aggregate_loop_inv_dates before_ts target_category
                (map_to_list (persisted d))) as [Ho _].
  destruct (agg_oldest _) as [o|]; [|done].
  destruct Ho as [(it & Hit & _) _]. exfalso. apply Hpos. rewrite Ht.
  unfold survivors in Hit.
  destruct (filter _ (map_to_list (persisted d))); [|simpl; lia].
  by apply not_elem_of_nil in Hit.
Qed.

Lemma survivor_of_cache (before_ts : option Z) (target_category : option string)
    (m : Cache) (mid : string) (data : CacheRecord) :
  (mid, data) ∈ survivors before_ts target_category (map_to_list m)
  <-> m !! mid = Some data /\ survives before_ts target_category data = true.
Proof. rewrite elem_of_survivors, elem_of_map_to_list. simpl. tauto. Qed.

(** X13.  For every cache and query, [oldest_date] is the least
    [last_date] among the records that survive the filters, and it is
    "N/A" exactly when no record survives. *)
Theorem oldest_date_is_minimum (mktime : LocalTime) (d : Disk)
    (query : option string) :
  let before_ts := (query_filters mktime query).1 in
  let target_category := (query_filters mktime query).2 in
  exists r, fetch_email_stats mktime d query = Ok r /\
    match oldest_date r with
    | None =>
        forall mid data, persisted d !! mid = Some data ->
                         survives before_ts target_category data = false
    | Some o =>
        (exists mid data, persisted d !! mid = Some data /\
                          survives before_ts target_category data = true /\
                          record_ts data = o) /\
        forall mid data, persisted d !! mid = Some data ->
                         survives before_ts target_category data = true ->
                         (o ≤ record_ts data)%Z
    end.
Proof.
  intros before_ts target_category.
  destruct (fetch_email_stats_result mktime d query) as (r & Hr & _ & _ & Ho).
  exists r. split; [done|]. rewrite Ho.
  pose proof (aggregate_loop_inv_dates before_ts target_category
                (map_to_list (persisted d))) as [Hi _].
  fold before_ts target_category.
  destruct (agg_oldest _) as [o|].
  - destruct Hi as [([mid data] & Hit & Hts) Hmin]. split.
    + apply survivor_of_cache in Hit as [? ?]. by exists mid, data.
    + intros mid' data' Hl Hk. apply (Hmin (mid', data')).
      by apply survivor_of_cache.
  - intros mid data Hl. destruct (survives _ _ data) eqn:Hk; [|done].
    assert ((mid, data) ∈ survivors before_ts target_category
                             (map_to_list (persisted d))) as Hin
      by by apply survivor_of_cache.
    rewrite Hi in Hin. by apply not_elem_of_nil in Hin.
Qed.

(** X14.  For every cache and query, the [last_date] of a SenderStat is
    not negative and not before the [last_date] of any surviving record
    of that sender, and it is 0 or the [last_date] of one of them; its
    [name] is the name of one of the sender's surviving records, or the
    sender email when that record has no name. *)
Theorem stat_last_date_is_latest (mktime : LocalTime) (d : Disk)
    (query : option string) :
  let before_ts := (query_filters mktime query).1 in
  let target_category := (query_filters mktime query).2 in
  exists r, fetch_email_stats mktime d query = Ok r /\
    forall st, st ∈ stats r ->
      (0 ≤ stat_last_date st)%Z /\
      (forall mid data,
         persisted d !! mid = Some data ->
         survives before_ts target_category data = true ->
         sender data = stat_email st ->
         (record_ts data ≤ stat_last_date st)%Z) /\
      (stat_last_date st = 0%Z \/
       exists mid data,
         persisted d !! mid = Some data /\
         survives before_ts target_category data = true /\
         sender data = stat_email st /\
         record_ts data = stat_last_date st) /\
      (exists mid data,
         persisted d !! mid = Some data /\
         survives before_ts target_category data = true /\
         sender data = stat_email st /\
         stat_name st = default (sender data) (name data)).
Proof.
  intros before_ts target_category.
  destruct (fetch_email_stats_result mktime d query) as (r & Hr & Hperm & _).
  exists r. split; [done|]. intros st Hst. rewrite Hperm in Hst.
  pose proof (aggregate_loop_inv_dates before_ts target_category
                (map_to_list (persisted d))) as [_ Hl].
  fold before_ts target_category in Hst.
  eapply Forall_forall in Hl as (H0 & Hle & Hex & Hname); [|exact Hst].
  split; [done|]. split; [|split].
  - intros mid data Hlk Hk Hs. apply (Hle (mid, data)); [|done].
    by apply survivor_of_cache.
  - destruct Hex as [?|([mid data] & Hit & Hs & Hts)]; [by left|right].
    apply survivor_of_cache in Hit as [? ?]. by exists mid, data.
  - destruct Hname as ([mid data] & Hit & Hs & Hn).
    apply survivor_of_cache in Hit as [? ?]. by exists mid, data.
Qed.

(** X15.  For every cache and query, the [ids] of a SenderStat are
    exactly the keys of the surviving records of that sender, each once,
    and [count] is their number, which is never zero. *)
Theorem stat_ids_are_the_senders_keys (mktime : LocalTime) (d : Disk)
    (query : option string) :
  let before_ts := (query_filters mktime query).1 in
  let target_category := (query_filters mktime query).2 in
  exists r, fetch_email_stats mktime d query = Ok r /\
    forall st, st ∈ stats r ->
      count st = length (ids st) /\ 0 < count st /\ NoDup (ids st) /\
      forall mid, mid ∈ ids st <->
        exists data, persisted d !! mid = Some data /\
                     survives before_ts target_category data = true /\
                     sender data = stat_email st.
Proof.
  intros before_ts target_category.
  destruct (fetch_email_stats_result mktime d query) as (r & Hr & Hperm & _).
  exists r. split; [done|]. intros st Hst. rewrite Hperm in Hst.
  pose proof (aggregate_loop_inv before_ts target_category
                (map_to_list (persisted d))) as [_ _ _ Hi _].
  fold before_ts target_category in Hst.
  eapply Forall_forall in Hi as (Hids & Hc & Hpos); [|exact Hst].
  split; [done|]. split; [done|]. split.
  - rewrite Hids. unfold kept_of.
    eapply sublist_NoDup; [apply (NoDup_fst_map_to_list (persisted d))|].
    apply fmap_sublist, sublist_filter.
  - intros mid. rewrite Hids, elem_of_kept_of.
    split; intros (data & Hin & ? & ?); exists data.
    + by apply elem_of_map_to_list in Hin.
    + split; [by apply elem_of_map_to_list|done].
Qed.

(** ** Strings: what [split] and [in] do on text built by concatenation *)

Section Strings.
Implicit Types s t b sep cur : string.

Lemma str_app_cons (c : ascii) s t : String c s +:+ t = String c (s +:+ t).
Proof. done. Qed.

Lemma str_app_nil_l s : EmptyString +:+ s = s.
Proof. done. Qed.

Lemma str_app_nil_r s : s +:+ EmptyString = s.
Proof. induction s as [|c s IH]; [done|]. rewrite str_app_cons. by f_equal. Qed.

Lemma str_app_assoc s t u : (s +:+ t) +:+ u = s +:+ (t +:+ u).
Proof. induction s as [|c s IH]; [done|]. rewrite !str_app_cons. by f_equal. Qed.

Lemma prefix_cons (a c : ascii) sep s :
  String.prefix (String a sep) (String c s)
  = bool_decide (a = c) && String.prefix sep s.
Proof.
  simpl. destruct (ascii_dec a c) as [->|Hne].
  - by rewrite bool_decide_eq_true_2.
  - by rewrite bool_decide_eq_false_2.
Qed.

Lemma prefix_app sep s : String.prefix sep (sep +:+ s) = true.
Proof.
  induction sep as [|a sep IH]; [by destruct s|].
  rewrite str_app_cons, prefix_cons, IH. by rewrite bool_decide_eq_true_2.
Qed.

Lemma prefix_has_char sep s (x : ascii) :
  String.prefix sep s = true ->
  PyStr.has_char x sep = true -> PyStr.has_char x s = true.
Proof.
  revert s. induction sep as [|a sep IH]; intros s Hp Hx; [done|].
  destruct s as [|c s]; [done|]. rewrite prefix_cons in Hp.
  apply andb_true_iff in Hp as [Hac Hp]. apply bool_decide_eq_true in Hac as ->.
  cbn [PyStr.has_char] in *. apply orb_true_iff in Hx as [Hx|Hx].
  - by rewrite Hx.
  - rewrite (IH s Hp Hx). by rewrite orb_true_r.
Qed.

Lemma prefix_app_blocked sep b (c : ascii) t :
  PyStr.has_char c sep = false ->
  String.prefix sep (b +:+ String c t) = String.prefix sep b.
Proof.
  revert b. induction sep as [|a sep IH]; intros b Hc.
  { by destruct b. }
  cbn [PyStr.has_char] in Hc. apply orb_false_iff in Hc as [Hac Hc].
  destruct b as [|y b].
  - rewrite str_app_nil_l, prefix_cons, Hac. done.
  - rewrite str_app_cons, !prefix_cons, IH by done. done.
Qed.

Lemma has_char_prefix_false sep s (x : ascii) :
  PyStr.has_char x sep = true -> PyStr.has_char x s = false ->
  String.prefix sep s = false.
Proof.
  intros Hx Hs. destruct (String.prefix sep s) eqn:E; [|done].
  by rewrite (prefix_has_char sep s x E Hx) in Hs.
Qed.

Lemma contains_cons sub (c : ascii) s :
  PyStr.contains sub (String c s)
  = String.prefix sub (String c s) || PyStr.contains sub s.
Proof. done. Qed.

(** A text that lacks a character of [sub] does not contain [sub]. *)
Lemma contains_none sub s (x : ascii) :
  PyStr.has_char x sub = true -> PyStr.has_char x s = false ->
  PyStr.contains sub s = false.
Proof.
  intros Hx. induction s as [|c s IH]; intros Hs.
  - simpl. destruct sub; [done|]. done.
  - rewrite contains_cons, (has_char_prefix_false sub _ x Hx Hs).
    cbn [PyStr.has_char] in Hs. apply orb_false_iff in Hs as [_ Hs]. by apply IH.
Qed.

Lemma contains_app_r sub b t :
  PyStr.contains sub t = true -> PyStr.contains sub (b +:+ t) = true.
Proof.
  intros Ht. induction b as [|c b IH]; [done|].
  rewrite str_app_cons, contains_cons, IH. by rewrite orb_true_r.
Qed.

Lemma contains_prefix sub s : PyStr.contains sub (sub +:+ s) = true.
Proof.
  destruct sub as [|a sub]; [by destruct s|].
  by rewrite str_app_cons, contains_cons, <- str_app_cons, prefix_app.
Qed.

Lemma split_go_step sep (c : ascii) s cur :
  String.prefix sep (String c s) = false ->
  PyStr.split_go sep (String c s) 0 cur
  = PyStr.split_go sep s 0 (cur +:+ String c EmptyString).
Proof. intros Hp. cbn [PyStr.split_go]. by rewrite Hp. Qed.

Lemma split_go_skip sep x s cur :
  PyStr.split_go sep (x +:+ s) (String.length x) cur = PyStr.split_go sep s 0 cur.
Proof.
  induction x as [|c x IH]; [done|].
  rewrite str_app_cons. cbn [String.length PyStr.split_go]. exact IH.
Qed.

(** At an occurrence of the separator the piece read so far is emitted. *)
Lemma split_go_sep (a : ascii) sep s cur :
  PyStr.split_go (String a sep) (String a sep +:+ s) 0 cur
  = cur :: PyStr.split_go (String a sep) s 0 EmptyString.
Proof.
  pose proof (prefix_app (String a sep) s) as Hp.
  rewrite str_app_cons in *. cbn [PyStr.split_go]. rewrite Hp.
  f_equal. cbn [String.length]. rewrite Nat.sub_succ, Nat.sub_0_r.
  apply split_go_skip.
Qed.

(** A text that lacks a character of the separator is one piece. *)
Lemma split_go_none sep s (x : ascii) cur :
  PyStr.has_char x sep = true -> PyStr.has_char x s = false ->
  PyStr.split_go sep s 0 cur = [cur +:+ s].
Proof.
  intros Hx. revert cur. induction s as [|c s IH]; intros cur Hs.
  - by rewrite str_app_nil_r.
  - rewrite split_go_step by by eapply has_char_prefix_false.
    cbn [PyStr.has_char] in Hs. apply orb_false_iff in Hs as [_ Hs].
    rewrite IH by done. by rewrite str_app_assoc.
Qed.

(** Scanning over [b] finds no separator when [b] lacks a character of
    the separator and is followed by a character that is not in it. *)
Lemma split_go_scan sep b (c x : ascii) t cur :
  PyStr.has_char c sep = false ->
  PyStr.has_char x sep = true -> PyStr.has_char x b = false ->
  PyStr.split_go sep (b +:+ String c t) 0 cur
  = PyStr.split_go sep (String c t) 0 (cur +:+ b).
Proof.
  intros Hc Hx. revert cur. induction b as [|y b IH]; intros cur Hb.
  - by rewrite str_app_nil_r.
  - rewrite str_app_cons, split_go_step.
    + cbn [PyStr.has_char] in Hb. apply orb_false_iff in Hb as [_ Hb].
      rewrite IH by done. by rewrite str_app_assoc.
    + rewrite <- str_app_cons, prefix_app_blocked by done.
      by eapply has_char_prefix_false.
Qed.
End Strings.

(** ** Sender parsing *)

Lemma search_angle_none (h : string) :
  PyStr.has_char "<" h = false -> PyStr.search_angle h = None.
Proof.
  induction h as [|c h IH]; [done|]. cbn [PyStr.has_char PyStr.search_angle].
  intros [Hc Hh]%orb_false_iff. rewrite Hc. by apply IH.
Qed.

Lemma lazy_until_gt_app (x rest acc : string) :
  PyStr.has_char ">" x = false -> PyStr.has_char "010" x = false ->
  PyStr.lazy_until_gt (x +:+ String ">" rest) acc = Some (acc +:+ x).
Proof.
  revert acc. induction x as [|c x IH]; intros acc Hgt Hnl.
  - by rewrite str_app_nil_l, str_app_nil_r.
  - rewrite str_app_cons. cbn [PyStr.has_char PyStr.lazy_until_gt] in *.
    apply orb_false_iff in Hgt as [Hc Hgt]. apply orb_false_iff in Hnl as [Hn Hnl].
    unfold PyStr.is_newline. rewrite Hc, Hn, IH by done.
    by rewrite str_app_assoc.
Qed.

Lemma search_angle_bracket (nm addr rest : string) :
  PyStr.has_char "<" nm = false ->
  addr <> EmptyString ->
  PyStr.has_char ">" addr = false -> PyStr.has_char "010" addr = false ->
  PyStr.search_angle (nm +:+ String "<" (addr +:+ String ">" rest)) = Some addr.
Proof.
  intros Hnm Hne Hgt Hnl. induction nm as [|c nm IH].
  - rewrite str_app_nil_l. destruct addr as [|d addr]; [done|].
    rewrite str_app_cons. cbn [PyStr.search_angle PyStr.has_char] in *.
    apply orb_false_iff in Hgt as [_ Hgt]. apply orb_false_iff in Hnl as [Hn Hnl].
    rewrite bool_decide_eq_true_2 by done. unfold PyStr.is_newline.
    by rewrite Hn, lazy_until_gt_app.
  - rewrite str_app_cons. cbn [PyStr.search_angle PyStr.has_char] in *.
    apply orb_false_iff in Hnm as [Hc Hnm]. rewrite Hc. by apply IH.
Qed.

(** Splitting on one character: the first piece ends at its first
    occurrence. *)
Lemma split_go_char (q : ascii) (b t cur : string) :
  PyStr.has_char q b = false ->
  PyStr.split_go (String q EmptyString) (b +:+ String q t) 0 cur
  = (cur +:+ b) :: PyStr.split_go (String q EmptyString) t 0 EmptyString.
Proof.
  revert cur. induction b as [|y b IH]; intros cur Hb.
  - rewrite str_app_nil_l, str_app_nil_r.
    change (String q t) with (String q EmptyString +:+ t).
    apply split_go_sep.
  - rewrite str_app_cons. cbn [PyStr.has_char] in Hb.
    apply orb_false_iff in Hb as [Hy Hb]. rewrite split_go_step.
    + rewrite IH by done. by rewrite str_app_assoc.
    + rewrite prefix_cons. apply bool_decide_eq_false in Hy.
      rewrite bool_decide_eq_false_2; [done|]. by intros ->.
Qed.

(** X16.  A From header without an opening angle bracket is taken
    verbatim as the sender email, and the sender name is that same text. *)
Theorem sender_without_bracket (from_header : string) :
  PyStr.has_char "<" from_header = false ->
  parse_sender_email from_header = from_header /\
  parse_sender_name from_header (parse_sender_email from_header) = from_header.
Proof.
  intros Hh. unfold parse_sender_email, parse_sender_name.
  rewrite search_angle_none by done.
  by rewrite (contains_none "<" from_header "<").
Qed.

Lemma sender_without_bracket_witness :
  parse_sender_email "noreply@example.com" = "noreply@example.com" /\
  parse_sender_name "noreply@example.com"
    (parse_sender_email "noreply@example.com") = "noreply@example.com".
Proof. apply (sender_without_bracket "noreply@example.com"). reflexivity. Defined.

(** X17.  For a From header [name <addr> rest] whose name part has no
    opening bracket and whose address is not empty and has neither a
    closing bracket nor a newline, the sender email is [addr] and the
    sender name is the name part with surrounding white space and then
    surrounding double quotes removed. *)
Theorem sender_with_bracket (nm addr rest : string) :
  PyStr.has_char "<" nm = false ->
  addr <> EmptyString ->
  PyStr.has_char ">" addr = false ->
  PyStr.has_char "010" addr = false ->
  let from_header := nm +:+ String "<" (addr +:+ String ">" rest) in
  parse_sender_email from_header = addr /\
  parse_sender_name from_header addr
  = PyStr.strip_char (Ascii.ascii_of_nat 34) (PyStr.strip nm).
Proof.
  intros Hnm Hne Hgt Hnl from_header. subst from_header.
  unfold parse_sender_email, parse_sender_name.
  rewrite search_angle_bracket by done. split; [done|].
  rewrite (contains_app_r "<" nm)
    by apply (contains_prefix "<" (addr +:+ String ">" rest)).
  unfold PyStr.split. rewrite (split_go_char "<") by done. done.
Qed.

Lemma sender_with_bracket_witness :
  parse_sender_email "Jane Doe <jane@example.com>" = "jane@example.com" /\
  parse_sender_name "Jane Doe <jane@example.com>" "jane@example.com" = "Jane Doe".
Proof.
  apply (sender_with_bracket "Jane Doe " "jane@example.com" "");
    [reflexivity|discriminate|reflexivity|reflexivity].
Defined.

(** ** From the request arguments of [get_stats] to the filters *)

Lemma contains_step_ne (a : ascii) (sep : string) (y : ascii) (s : string) :
  a <> y ->
  PyStr.contains (String a sep) (String y s) = PyStr.contains (String a sep) s.
Proof.
  intros Hne. rewrite contains_cons, prefix_cons.
  by rewrite bool_decide_eq_false_2.
Qed.

Lemma split_go_step_ne (a : ascii) (sep : string) (y : ascii) (s cur : string) :
  a <> y ->
  PyStr.split_go (String a sep) (String y s) 0 cur
  = PyStr.split_go (String a sep) s 0 (cur +:+ String y EmptyString).
Proof.
  intros Hne. apply split_go_step. rewrite prefix_cons.
  by rewrite bool_decide_eq_false_2.
Qed.

Lemma parse_before_built (mktime : LocalTime) (b rest : string) :
  PyStr.has_char " " b = false -> PyStr.has_char ":" b = false ->
  rest = EmptyString \/
    (exists u, rest = String " " u /\ PyStr.has_char "b" u = false) ->
  parse_before mktime ("before:" +:+ (b +:+ rest))
  = match mktime b with
    | Some t => Some (t * 1000)%Z
    | None => None
    end.
Proof.
  intros Hsp Hco Hrest. unfold parse_before.
  rewrite contains_prefix. unfold PyStr.split.
  rewrite (split_go_sep "b" "efore:").
  destruct Hrest as [->|(u & -> & Hu)].
  - rewrite str_app_nil_r.
    rewrite (split_go_none "before:" b ":") by done.
    cbn [lookup list_lookup]. rewrite str_app_nil_l.
    rewrite (split_go_none " " b " ") by done.
    cbn [head]. by rewrite str_app_nil_l.
  - rewrite (split_go_scan "before:" b " " ":") by done.
    rewrite (split_go_none "before:" (String " " u) "b")
      by (try done; cbn [PyStr.has_char]; by rewrite Hu).
    cbn [lookup list_lookup]. rewrite !str_app_nil_l.
    rewrite (split_go_char " ") by done.
    cbn [head]. by rewrite str_app_nil_l.
Qed.

Lemma parse_category_absent (b : string) :
  PyStr.has_char ":" b = false -> parse_category ("before:" +:+ b) = None.
Proof.
  intros Hb. unfold parse_category.
  assert (PyStr.contains "category:" ("before:" +:+ b) = false) as ->; [|done].
  rewrite !str_app_cons, str_app_nil_l.
  rewrite !contains_step_ne by done.
  by apply (contains_none "category:" b ":").
Qed.

Lemma split_category_built (b c : string) :
  PyStr.has_char ":" b = false ->
  PyStr.split "category:" ("before:" +:+ (b +:+ String " " ("category:" +:+ c))) !! 1
  = PyStr.split "category:" c !! 0.
Proof.
  intros Hb. unfold PyStr.split.
  set (tail := "category:" +:+ c).
  rewrite !str_app_cons, str_app_nil_l.
  rewrite !split_go_step_ne by done.
  rewrite (split_go_scan "category:" b " " ":") by done.
  rewrite split_go_step_ne by done.
  subst tail. by rewrite (split_go_sep "c" "ategory:").
Qed.

Lemma contains_category_built (b c : string) :
  PyStr.contains "category:"
    ("before:" +:+ (b +:+ String " " ("category:" +:+ c))) = true.
Proof.
  apply contains_app_r, contains_app_r.
  rewrite contains_cons, contains_prefix. by rewrite orb_true_r.
Qed.

Lemma parse_category_built (b c : string) :
  PyStr.has_char ":" b = false ->
  c ∈ ["social"; "promotions"; "updates"; "forums"] ->
  parse_category ("before:" +:+ (b +:+ String " " ("category:" +:+ c)))
  = Some ("CATEGORY_" +:+ PyStr.upper c).
Proof.
  intros Hb Hc. unfold parse_category.
  rewrite contains_category_built, split_category_built by done.
  repeat (apply elem_of_cons in Hc as [->|Hc]; [reflexivity|]).
  by apply not_elem_of_nil in Hc.
Qed.

Lemma query_filters_built (mktime : LocalTime) (b c : string) :
  b <> EmptyString ->
  PyStr.has_char " " b = false -> PyStr.has_char ":" b = false ->
  c ∈ ["social"; "promotions"; "updates"; "forums"] ->
  let cutoff := match mktime b with
                | Some t => Some (t * 1000)%Z
                | None => None
                end in
  query_filters mktime (build_query (Some b) None) = (cutoff, None) /\
  query_filters mktime (build_query (Some b) (Some "all")) = (cutoff, None) /\
  query_filters mktime (build_query (Some b) (Some c))
  = (cutoff, Some ("CATEGORY_" +:+ PyStr.upper c)) /\
  query_filters mktime (build_query None (Some c))
  = (None, Some ("CATEGORY_" +:+ PyStr.upper c)) /\
  query_filters mktime (build_query None None) = (None, None).
Proof.
  intros Hne Hsp Hco Hc cutoff.
  assert (query_filters mktime (Some ("before:" +:+ b)) = (cutoff, None)) as H1.
  { unfold query_filters. rewrite bool_decide_eq_false_2 by done.
    rewrite parse_category_absent by done.
    rewrite <- (str_app_nil_r b) at 1.
    rewrite parse_before_built by (try done; by left). done. }
  assert (build_query (Some b) None = Some ("before:" +:+ b)) as E1.
  { unfold build_query. by rewrite bool_decide_eq_false_2. }
  assert (build_query (Some b) (Some "all") = Some ("before:" +:+ b)) as E2.
  { unfold build_query. by rewrite bool_decide_eq_false_2. }
  split; [by rewrite E1|]. split; [by rewrite E2|]. split; [|split; [|done]].
  - assert (build_query (Some b) (Some c)
            = Some ("before:" +:+ (b +:+ String " " ("category:" +:+ c)))) as ->.
    { unfold build_query. rewrite bool_decide_eq_false_2 by done.
      assert (bool_decide (c = EmptyString) || bool_decide (c = "all") = false)
        as ->.
      { repeat (apply elem_of_cons in Hc as [->|Hc]; [reflexivity|]).
        by apply not_elem_of_nil in Hc. }
      cbn [app PyStr.join]. by rewrite str_app_assoc. }
    unfold query_filters. rewrite bool_decide_eq_false_2 by done.
    rewrite parse_category_built by done.
    rewrite parse_before_built; [done|done|done|]. right. eexists. split; [done|].
    repeat (apply elem_of_cons in Hc as [->|Hc]; [reflexivity|]).
    by apply not_elem_of_nil in Hc.
  - repeat (apply elem_of_cons in Hc as [->|Hc]; [reflexivity|]).
    by apply not_elem_of_nil in Hc.
Qed.

(** X18.  The query that [get_stats] builds from its request arguments is
    parsed back by [fetch_email_stats] into the same filters: for a date
    text without space and colon, the cutoff is 1000 times what the local
    clock gives for that text (no cutoff when the clock rejects it), and
    for a category among social, promotions, updates and forums the label
    is [CATEGORY_] followed by its upper-case form, while the category
    [all] or no category gives no label. *)
Theorem built_query_parses_back (mktime : LocalTime) (b c : string) :
  b <> EmptyString ->
  PyStr.has_char " " b = false -> PyStr.has_char ":" b = false ->
  c ∈ ["social"; "promotions"; "updates"; "forums"] ->
  let cutoff := match mktime b with
                | Some t => Some (t * 1000)%Z
                | None => None
                end in
  query_filters mktime (build_query (Some b) None) = (cutoff, None) /\
  query_filters mktime (build_query (Some b) (Some "all")) = (cutoff, None) /\
  query_filters mktime (build_query (Some b) (Some c))
  = (cutoff, Some ("CATEGORY_" +:+ PyStr.upper c)) /\
  query_filters mktime (build_query None (Some c))
  = (None, Some ("CATEGORY_" +:+ PyStr.upper c)) /\
  query_filters mktime (build_query None None) = (None, None).
Proof. apply query_filters_built. Qed.

Lemma built_query_parses_back_witness :
  query_filters UTC.mktime (build_query (Some "2023-06-01") (Some "social"))
  = (Some 1685577600000%Z, Some "CATEGORY_SOCIAL").
Proof.
  refine (proj1 (proj2 (proj2
    (built_query_parses_back UTC.mktime "2023-06-01" "social" _ _ _ _)))).
  - discriminate.
  - reflexivity.
  - reflexivity.
  - apply elem_of_cons. by left.
Defined.

(** ** The handlers of [app.py] over the core *)

Lemma fetch_email_stats_filters (mktime : LocalTime) (d : Disk)
    (q1 q2 : option string) :
  query_filters mktime q1 = query_filters mktime q2 ->
  fetch_email_stats mktime d q1 = fetch_email_stats mktime d q2.
Proof. unfold fetch_email_stats. by intros ->. Qed.

Lemma total_scanned_survivors (mktime : LocalTime) (d : Disk)
    (query : option string) :
  exists r, fetch_email_stats mktime d query = Ok r /\
    total_scanned r
    = length (survivors (query_filters mktime query).1
                (query_filters mktime query).2 (map_to_list (persisted d))).
Proof.
  destruct (fetch_email_stats_result mktime d query) as (r & Hr & _ & Ht & _).
  exists r. split; [done|]. rewrite Ht. apply aggregate_loop_inv.
Qed.

(** X19.  A stats request with a date and a category, the date text
    being not empty and holding neither a space nor a colon, and the
    category being one of social, promotions, updates and forums.  When
    the local clock gives [t], not zero, for the date text, an authorized
    [get_stats] answers with a total that is the number of cached records
    whose [last_date] is before [1000 * t] and whose labels contain the
    label of the category; an unauthorized request gets the 401 reply. *)
Theorem get_stats_applies_filters (mktime : LocalTime) (d : Disk)
    (b c : string) (t : Z) :
  b <> EmptyString ->
  PyStr.has_char " " b = false -> PyStr.has_char ":" b = false ->
  c ∈ ["social"; "promotions"; "updates"; "forums"] ->
  mktime b = Some t -> t <> 0%Z ->
  get_stats false mktime d (Some b) (Some c) = Unauthorized /\
  exists r, get_stats true mktime d (Some b) (Some c) = Reply r /\
    total_scanned r
    = length (filter (fun it : string * CacheRecord =>
                        (record_ts it.2 < t * 1000)%Z /\
                        "CATEGORY_" +:+ PyStr.upper c ∈ default [] (labels it.2))
                (map_to_list (persisted d))).
Proof.
  intros Hne Hsp Hco Hc Ht Ht0. split; [done|]. unfold get_stats. simpl.
  destruct (total_scanned_survivors mktime d (build_query (Some b) (Some c)))
    as (r & -> & Htot).
  exists r. split; [done|]. rewrite Htot.
  destruct (query_filters_built mktime b c Hne Hsp Hco Hc) as (_ & _ & -> & _).
  rewrite Ht. simpl. unfold survivors. f_equal. apply list_filter_iff.
  intros [mid data]. simpl. unfold survives, date_excludes, category_excludes.
  rewrite bool_decide_eq_true_2 by lia. simpl.
  rewrite andb_true_iff, !negb_true_iff, !bool_decide_eq_false. split.
  - intros [H1 H2]. split; [lia|]. by apply dec_stable.
  - intros [H1 H2]. split; [lia|]. by intros ?.
Qed.

Lemma get_stats_applies_filters_witness :
  exists r, get_stats true UTC.mktime Sample.cached_disk
              (Some "2023-06-02") (Some "social") = Reply r /\
    total_scanned r = 1 /\
    length (map_to_list (persisted Sample.cached_disk)) = 2.
Proof.
  destruct (get_stats_applies_filters UTC.mktime Sample.cached_disk
              "2023-06-02" "social" 1685664000) as [_ (r & Hr & Ht)].
  - discriminate.
  - reflexivity.
  - reflexivity.
  - apply elem_of_cons. by left.
  - reflexivity.
  - discriminate.
  - exists r. split; [exact Hr|]. split; [|reflexivity].
    rewrite Ht. reflexivity.
Defined.

(** X20.  A date text, not empty and holding neither a space nor a
    colon, that the local clock rejects is ignored: the reply of
    [get_stats] is the reply to the same request without the date, with
    no category as with one of social, promotions, updates and forums. *)
Theorem get_stats_ignores_bad_date (authorized : bool) (mktime : LocalTime)
    (d : Disk) (b c : string) :
  b <> EmptyString ->
  PyStr.has_char " " b = false -> PyStr.has_char ":" b = false ->
  c ∈ ["social"; "promotions"; "updates"; "forums"] ->
  mktime b = None ->
  get_stats authorized mktime d (Some b) None
  = get_stats authorized mktime d None None /\
  get_stats authorized mktime d (Some b) (Some c)
  = get_stats authorized mktime d None (Some c).
Proof.
  intros Hne Hsp Hco Hc Hb.
  destruct (query_filters_built mktime b c Hne Hsp Hco Hc)
    as (H1 & _ & H2 & H3 & H4).
  rewrite Hb in H1, H2. unfold get_stats.
  split; destruct authorized; simpl; try done.
  - by rewrite (fetch_email_stats_filters mktime d
                  (build_query (Some b) None) (build_query None None))
      by by rewrite H1, H4.
  - by rewrite (fetch_email_stats_filters mktime d
                  (build_query (Some b) (Some c)) (build_query None (Some c)))
      by by rewrite H2, H3.
Qed.

Lemma get_stats_ignores_bad_date_witness :
  get_stats true UTC.mktime Sample.cached_disk (Some "2023-02-30") None
  = get_stats true UTC.mktime Sample.cached_disk None None /\
  (exists r, get_stats true UTC.mktime Sample.cached_disk None None = Reply r /\
             total_scanned r = 2) /\
  (exists r, get_stats true UTC.mktime Sample.cached_disk (Some "2023-02-28") None
             = Reply r /\ total_scanned r = 1).
Proof.
  split.
  - refine (proj1 (get_stats_ignores_bad_date true UTC.mktime Sample.cached_disk
                     "2023-02-30" "social" _ _ _ _ _)).
    + discriminate.
    + reflexivity.
    + reflexivity.
    + apply elem_of_cons. by left.
    + reflexivity.
  - split; eexists; (split; [reflexivity|reflexivity]).
Defined.

(** X21.  Deletion followed by a stats query: whatever the remote does
    and whatever the filters, an id of a batch that was trashed is in
    the [ids] of no SenderStat. *)
Theorem trashed_ids_leave_the_stats (service : TrashService)
    (mktime : LocalTime) (d : Disk) (message_ids : list string)
    (query : option string) :
  exists n d' r,
    delete_messages service d message_ids = Ok (n, d') /\
    fetch_email_stats mktime d' query = Ok r /\
    forall st id, st ∈ stats r -> id ∈ trashed service message_ids ->
                  id ∉ ids st.
Proof.
  destruct (delete_messages_result service d message_ids) as (d' & Hd & Hp).
  destruct (fetch_email_stats_result mktime d' query) as (r & Hr & Hperm & _).
  exists (length (trashed service message_ids)), d', r.
  split; [done|]. split; [done|].
  intros st id Hst Hid Hin. rewrite Hperm in Hst.
  pose proof (aggregate_loop_inv (query_filters mktime query).1
                (query_filters mktime query).2 (map_to_list (persisted d')))
    as [_ _ _ Hi _].
  eapply Forall_forall in Hi as (Hids & _ & _); [|exact Hst].
  rewrite Hids in Hin. apply elem_of_kept_of in Hin as (data & Hdata & _ & _).
  apply elem_of_map_to_list in Hdata.
  rewrite Hp, remove_ids_lookup, bool_decide_eq_true_2 in Hdata by done.
  done.
Qed.


(** ** Listing *)

Lemma list_messages_prefix (env : Env) (pgs : list PageResult) :
  forall (s : Syncer) (messages : list string) (n : nat)
         (s' : Syncer) (messages' : list string),
    n = length messages ->
    list_messages env pgs s messages n = Done s' messages' ->
    is_set env s' = false ->
    exists k, k <= length pgs /\
      messages' = messages ++ listed_upto pgs k /\
      (k < length pgs -> (max_results s ≤ Z.of_nat (length messages'))%Z) /\
      (forall j, 0 < j < k ->
         (Z.of_nat (length (messages ++ listed_upto pgs j)) < max_results s)%Z).
Proof.
  induction pgs as [|p rest IH]; intros s messages n s' messages' Hn Hl Hs;
    cbn [list_messages] in Hl; destruct (is_set env s) eqn:Hset.
  - injection Hl as <- <-. by rewrite (is_set_tick env s Hset) in Hs.
  - injection Hl as <- <-. exists 0. unfold listed_upto. simpl.
    rewrite app_nil_r. repeat split; [lia|lia|]. intros j ?. lia.
  - injection Hl as <- <-. by rewrite (is_set_tick env s Hset) in Hs.
  - destruct p as [msg|batch_msgs]; [done|].
    destruct (bool_decide (rest = []) ||
              bool_decide (max_results (with_sync
                 (set_total (n + length batch_msgs)) (tick s))
                 ≤ Z.of_nat (n + length batch_msgs))%Z) eqn:Hc.
    + injection Hl as <- <-. exists 1. unfold listed_upto. simpl.
      rewrite ?take_0. simpl. rewrite ?app_nil_r.
      split; [lia|]. split; [done|]. split; [|intros j ?; lia].
      intros Hlt. apply orb_true_iff in Hc as [Hc|Hc].
      * apply bool_decide_eq_true in Hc. subst rest. simpl in Hlt. lia.
      * apply bool_decide_eq_true in Hc. simpl in Hc.
        rewrite length_app. lia.
    + apply orb_false_iff in Hc as [_ Hc]. apply bool_decide_eq_false in Hc.
      simpl in Hc.
      destruct (IH (with_sync (set_total (n + length batch_msgs)) (tick s))
                  (messages ++ batch_msgs) (n + length batch_msgs) s' messages')
        as (k & Hk & Hm & Hcap & Hmin); [by rewrite length_app, Hn|done|done|].
      exists (S k). unfold listed_upto in *. simpl in *.
      split; [lia|]. split; [by rewrite Hm, <- app_assoc|]. split.
      * intros Hlt. apply Hcap. lia.
      * intros j Hj. destruct j as [|j]; [lia|]. simpl.
        destruct j as [|j].
        { rewrite ?take_0. simpl. rewrite ?app_nil_r, length_app. lia. }
        rewrite app_assoc. apply Hmin. lia.
Qed.

(** X23.  When the listing phase is completed, the listed ids are the
    ids of the first [k] pages of the remote listing, in order, for some
    [k]; if pages are left over, it is because [max_results] ids were
    reached, and no page was requested after [max_results] ids had been
    listed. *)
Theorem listing_respects_cap (env : Env) (s0 s : Syncer)
    (messages : list string) :
  prepare env s0 = Ready s messages ->
  exists k, k <= length (pages env) /\
    messages = listed_upto (pages env) k /\
    (k < length (pages env) ->
       (max_results s0 ≤ Z.of_nat (length messages))%Z) /\
    (forall j, 0 < j < k ->
       (Z.of_nat (length (listed_upto (pages env) j)) < max_results s0)%Z).
Proof.
  unfold prepare. destruct (build_service env); [|done].
  destruct (list_messages _ _ _ _ _) as [s1 m|s1 m] eqn:Hl; [|done].
  destruct (is_set env s1) eqn:Hs; [done|]. intros [= <- <-].
  destruct (list_messages_prefix env (pages env) _ [] 0 s1 m eq_refl Hl Hs)
    as (k & Hk & Hm & Hcap & Hmin).
  exists k. simpl in *. done.
Qed.

Lemma listing_respects_cap_witness :
  let env := {| build_service := Ok tt;
                pages := [Page ["a"; "b"]; Page ["c"]; Page ["d"]];
                execute_batch := Sample.all_ok; stop_at := None |} in
  let s0 := {| max_results := 3; output_cache := ∅; sync := SYNC_STATE;
               disk := Sample.empty_disk; clock := 0; fetch_log := [] |} in
  exists k, k <= 3 /\
    ["a"; "b"; "c"] = listed_upto (pages env) k /\
    (k < 3 -> (3 ≤ Z.of_nat (length ["a"; "b"; "c"]))%Z) /\
    (forall j, 0 < j < k ->
       (Z.of_nat (length (listed_upto (pages env) j)) < 3)%Z).
Proof.
  intros env s0.
  refine (listing_respects_cap env s0 _ ["a"; "b"; "c"] _).
  reflexivity.
Defined.
